(** * ConfigDrivenForms: the declarative-field form generator

    A shallow embedding of the form library described in the repository's
    README (types/formTypes.ts, utils/validationSchema.ts,
    hooks/useFormSubmit.ts, components/FormField.tsx and
    components/FormGenerator.tsx), followed by the properties of its
    validation contract, its initial values, its field renderer and its
    submit adapter.

    JavaScript objects used as dictionaries ([shape], [initialValues],
    Formik's [values]) are finite maps from the names of their own
    properties to values ([gmap string _]): one own property per key,
    assignment overwrites, and an assignment to the key [__proto__] creates
    no own property (see [assign]). *)

From Stdlib Require Import Ascii String.
From stdpp Require Import gmap strings list fin_maps.

(** ** Values held by the form *)

(** What a control can store under a field name: the text of an input or the
    state of a checkbox. A missing property ([undefined]) is [None] of
    [option Value]. *)
Inductive Value :=
  | VStr (s : string)
  | VBool (b : bool).

#[global] Instance Value_eq_dec : EqDecision Value.
Proof. solve_decision. Defined.

(** ** Property assignment *)

(** [obj[key] = v] on a plain object. Under the key [__proto__] the
    assignment reaches the prototype setter: a string or a boolean is
    ignored, an object becomes the prototype, and in both cases the object
    gets no own property. Under any other key the own property is created or
    overwritten. *)
Definition assign {A} (key : string) (v : A) (obj : gmap string A)
    : gmap string A :=
  if decide (key = "__proto__") then obj else <[key := v]> obj.

(** A name Formik takes as one key: it has none of the characters that make
    Formik read and write a nested path, and it is not [__proto__]. *)
Definition plain_name (n : string) : bool :=
  bool_decide (n ≠ "__proto__")
  && forallb (λ c, negb (bool_decide (c ∈ ["."%char; "["%char; "]"%char])))
       (list_ascii_of_string n).

(** ** types/formTypes.ts *)

(** [interface Field]; [Schema] stands for [Yup.AnySchema]. Optional members
    are [option]s ([None] is an absent member). *)
Record Field (Schema : Type) := mkField {
  type : string;
  name : string;
  label : option string;
  value : option string;
  options : option (list string);
  validation : option Schema
}.

Arguments mkField {Schema} _ _ _ _ _ _.
Arguments type {Schema} _.
Arguments name {Schema} _.
Arguments label {Schema} _.
Arguments value {Schema} _.
Arguments options {Schema} _.
Arguments validation {Schema} _.

(** What this development uses of the [Yup.AnySchema] interface: the verdict
    of a constraint on the value found under its key ([None] when the key is
    missing). *)
Class AnySchema (Schema : Type) :=
  isValidSync : Schema → option Value → bool.

(** ** utils/validationSchema.ts *)

(** The body of the [forEach] callback: [if (field.validation)
    shape[field.name] = field.validation]. *)
Definition shape_assign {Schema} (shape : gmap string Schema)
    (field : Field Schema) : gmap string Schema :=
  match validation field with
  | Some rule => assign (name field) rule shape
  | None => shape
  end.

(** [generateValidationSchema]: [shape] starts empty, every field is visited
    in list order, and the object schema built from [shape] is the aggregate
    contract, kept here as the mapping itself. *)
Definition generateValidationSchema {Schema} (fields : list (Field Schema))
    : gmap string Schema :=
  let shape := foldl shape_assign ∅ fields in
  shape.

(** ** components/FormGenerator.tsx: initial values *)

(** [jsonData.fields.reduce((acc, field) => { acc[field.name] = ''; return acc }, {})] *)
Definition initialValues {Schema} (fields : list (Field Schema))
    : gmap string Value :=
  foldl (λ acc field, assign (name field) (VStr "") acc) ∅ fields.

(** ** components/FormField.tsx *)

(** The concrete controls of components/fields/, each with the props
    [FormField] passes to it. *)
Inductive Control :=
  | TextField (name : string) (label : option string) (type : string)
  | CheckboxField (name : string) (label : option string)
  | RadioField (name : string) (label : option string) (options : list string)
  | SelectField (name : string) (label : option string) (options : list string)
  | TextAreaField (name : string) (label : option string).

(** The kinds that have a [case] in the [switch]. *)
Definition recognized_kinds : list string :=
  ["text"; "password"; "email"; "number"; "checkbox"; "radio"; "select";
   "textarea"].

(** [FormField]: the [switch] on [field.type]; [return null] is [None].
    [field.options || []] is [default [] (options field)]. *)
Definition FormField {Schema} (field : Field Schema) : option Control :=
  let t := type field in
  if bool_decide (t ∈ ["text"; "password"; "email"; "number"]) then
    Some (TextField (name field) (label field) t)
  else if bool_decide (t = "checkbox") then
    Some (CheckboxField (name field) (label field))
  else if bool_decide (t = "radio") then
    Some (RadioField (name field) (label field) (default [] (options field)))
  else if bool_decide (t = "select") then
    Some (SelectField (name field) (label field) (default [] (options field)))
  else if bool_decide (t = "textarea") then
    Some (TextAreaField (name field) (label field))
  else None.

(** The [name], [label] and [options] props a control was given. *)
Definition control_name (control : Control) : string :=
  match control with
  | TextField n _ _ | CheckboxField n _ | RadioField n _ _
  | SelectField n _ _ | TextAreaField n _ => n
  end.

Definition control_label (control : Control) : option string :=
  match control with
  | TextField _ l _ | CheckboxField _ l | RadioField _ l _
  | SelectField _ l _ | TextAreaField _ l => l
  end.

Definition control_options (control : Control) : list string :=
  match control with
  | RadioField _ _ choices | SelectField _ _ choices => choices
  | _ => []
  end.

(** [jsonData.fields.map((field, index) => <FormField key={index} .../>)]:
    one slot per descriptor, keyed by its index. *)
Definition render_fields {Schema} (fields : list (Field Schema))
    : list (nat * option Control) :=
  imap (λ index field, (index, FormField field)) fields.

(** ** Form state: Formik's state and the hook's two messages *)

(** [values] and [isSubmitting] are the members of Formik's state the form
    reads; [successMessage] and [errorMessage] are the two [useState] cells of
    [useFormSubmit] (both start as [null]). [calls] is a ghost log of the
    arguments the external [onSubmit] callback has been invoked with, most
    recent first. *)
Record FormState := mkState {
  values : gmap string Value;
  isSubmitting : bool;
  successMessage : option string;
  errorMessage : option string;
  calls : list (gmap string Value)
}.

(** State-changing calls are functions on the state, run left to right. *)
Definition Action := FormState → FormState.

Definition skip : Action := λ st, st.

Definition seq (a b : Action) : Action := λ st, b (a st).

Notation "a >>> b" := (seq a b) (at level 61, left associativity).

Definition setSuccessMessage (message : option string) : Action := λ st,
  mkState (values st) (isSubmitting st) message (errorMessage st) (calls st).

Definition setErrorMessage (message : option string) : Action := λ st,
  mkState (values st) (isSubmitting st) (successMessage st) message (calls st).

Definition setSubmitting (flag : bool) : Action := λ st,
  mkState (values st) flag (successMessage st) (errorMessage st) (calls st).

(** Modelled from the spec: Formik keeps the current values as a mapping from
    names to values, and a control's change handler stores the new value
    under the control's name, a property assignment on that mapping. (For a
    name that is not a [plain_name] Formik writes along a path of nested
    objects instead; the properties below that follow edits say so where it
    matters.) *)
Definition setFieldValue (n : string) (v : Value) : Action := λ st,
  mkState (assign n v (values st)) (isSubmitting st) (successMessage st)
    (errorMessage st) (calls st).

(** Modelled from the spec: Formik's [resetForm()] clears all field values
    back to the initial values (the adapter's own comment says "Reset form
    fields to initial values"). *)
Definition resetForm {Schema} (fields : list (Field Schema)) : Action := λ st,
  mkState (initialValues fields) (isSubmitting st) (successMessage st)
    (errorMessage st) (calls st).

(** The external callback is entered with the collected values. *)
Definition invoke (vals : gmap string Value) : Action := λ st,
  mkState (values st) (isSubmitting st) (successMessage st) (errorMessage st)
    (vals :: calls st).

(** ** hooks/useFormSubmit.ts *)

(** How the promise returned by [onSubmit] settles. *)
Inductive Settlement :=
  | Resolved
  | Rejected (error : string).

(** A submit callback: for the values it is given, the settlement of its
    promise, or [None] for a promise that never settles. *)
Definition SubmitCallback := gmap string Value → option Settlement.

Definition success_text : string := "Form submitted successfully!".
Definition failure_text : string := "Failed to submit the form. Please try again.".

(** [handleSubmit] after the [await]: the rest of the [try] block when the
    promise resolved, the [catch] block when it rejected, then [finally]. *)
Definition handleSubmit_settled {Schema} (fields : list (Field Schema))
    (outcome : Settlement) : Action :=
  match outcome with
  | Resolved =>
      setSuccessMessage (Some success_text) >>>
      setErrorMessage None >>>
      resetForm fields
  | Rejected error =>
      setErrorMessage (Some failure_text) >>>
      setSuccessMessage None
  end >>>
  setSubmitting false.

(** [handleSubmit(values, { setSubmitting, resetForm })]: call [onSubmit],
    wait for its promise, continue as the promise settles. Nothing after the
    [await] runs for a promise that never settles. *)
Definition handleSubmit {Schema} (fields : list (Field Schema))
    (onSubmit : SubmitCallback) (vals : gmap string Value) : Action :=
  invoke vals >>>
  match onSubmit vals with
  | Some outcome => handleSubmit_settled fields outcome
  | None => skip
  end.

(** ** components/FormGenerator.tsx: the rendered form *)

(** Modelled from the spec: Formik's [dirty] flag is off while the form is
    unchanged from its initial values. *)
Definition dirty {Schema} (fields : list (Field Schema)) (st : FormState)
    : bool :=
  bool_decide (values st ≠ initialValues fields).

(** Modelled from the spec: Formik's [isValid] flag is validity recomputed
    against the aggregate contract on every value change, so it is on when
    every constraint of the contract accepts what the values hold under its
    key. *)
Definition isValid `{AnySchema Schema} (fields : list (Field Schema))
    (st : FormState) : bool :=
  bool_decide
    (map_Forall (λ n rule, isValidSync rule (values st !! n) = true)
       (generateValidationSchema fields)).

(** [disabled={isSubmitting || !isValid || !dirty}] *)
Definition submit_disabled `{AnySchema Schema} (fields : list (Field Schema))
    (st : FormState) : bool :=
  isSubmitting st || negb (isValid fields st) || negb (dirty fields st).

(** [{message && <div style={{ color }}>{message}</div>}]: [null] and the
    empty string render nothing. *)
Definition status_div (color : string) (message : option string)
    : list (string * string) :=
  match message with
  | Some text => if decide (text = "") then [] else [(color, text)]
  | None => []
  end.

Definition render_status (st : FormState) : list (string * string) :=
  status_div "green" (successMessage st) ++ status_div "red" (errorMessage st).

(** At most one of the two messages is set. *)
Definition exclusive (st : FormState) : Prop :=
  successMessage st = None ∨ errorMessage st = None.

(** ** The form as a transition system *)

(** What happens to a mounted form: the user edits a control, the user
    activates the submit control, the promise of the callback in flight
    settles. *)
Inductive Event :=
  | Change (n : string) (v : Value)
  | Submit
  | Settle (outcome : Settlement).

(** The state the form rests in once an event has been handled. A disabled
    submit control submits nothing. An enabled one has Formik put the form in
    flight and enter the adapter, which calls [onSubmit] with the current
    values and waits; the adapter resumes when the promise settles and runs to
    its end. The states it passes through on the way are [step_renders]. *)
Definition step `{AnySchema Schema} (fields : list (Field Schema))
    (st : FormState) (e : Event) : FormState :=
  match e with
  | Change n v => setFieldValue n v st
  | Submit =>
      if submit_disabled fields st then st
      else (setSubmitting true >>> invoke (values st)) st
  | Settle outcome =>
      if isSubmitting st then handleSubmit_settled fields outcome st else st
  end.

Definition is_settlement (e : Event) : bool :=
  match e with
  | Settle _ => true
  | _ => false
  end.

(** The freshly mounted form. *)
Definition initialState {Schema} (fields : list (Field Schema)) : FormState :=
  mkState (initialValues fields) false None None [].

Definition run `{AnySchema Schema} (fields : list (Field Schema))
    (events : list Event) : FormState :=
  foldl (step fields) (initialState fields) events.

(** The state-changing calls [handleSubmit] makes after the [await], in the
    order of the source: the rest of the [try] block or the [catch] block,
    then [finally]. *)
Definition handleSubmit_settled_calls {Schema} (fields : list (Field Schema))
    (outcome : Settlement) : list Action :=
  match outcome with
  | Resolved =>
      [ setSuccessMessage (Some success_text);
        setErrorMessage None;
        resetForm fields;
        setSubmitting false ]
  | Rejected error =>
      [ setErrorMessage (Some failure_text);
        setSuccessMessage None;
        setSubmitting false ]
  end.

(** The states a sequence of calls goes through, one after each call. *)
Fixpoint states_through (setters : list Action) (st : FormState)
    : list FormState :=
  match setters with
  | [] => []
  | setter :: rest => setter st :: states_through rest (setter st)
  end.

(** The states rendered while an event is handled. index.tsx mounts the
    application with react-dom's [render], under which a state update made
    after an [await] is applied and rendered at once: the adapter's calls
    after the [await] are rendered one by one. An edit or a submit attempt
    renders the state [step] gives. *)
Definition step_renders `{AnySchema Schema} (fields : list (Field Schema))
    (st : FormState) (e : Event) : list FormState :=
  match e with
  | Settle outcome =>
      if isSubmitting st
      then states_through (handleSubmit_settled_calls fields outcome) st
      else []
  | _ => [step fields st e]
  end.

Fixpoint renders_from `{AnySchema Schema} (fields : list (Field Schema))
    (st : FormState) (events : list Event) : list FormState :=
  match events with
  | [] => []
  | e :: rest =>
      step_renders fields st e ++ renders_from fields (step fields st e) rest
  end.

(** Every state rendered from the mount of the form on. *)
Definition rendered `{AnySchema Schema} (fields : list (Field Schema))
    (events : list Event) : list FormState :=
  initialState fields :: renders_from fields (initialState fields) events.

(** A submit attempt with a known callback, start to end: the in-flight flag
    is raised and the adapter runs until the promise has settled. *)
Definition submitForm `{AnySchema Schema} (fields : list (Field Schema))
    (onSubmit : SubmitCallback) : Action := λ st,
  if submit_disabled fields st then st
  else (setSubmitting true >>> handleSubmit fields onSubmit (values st)) st.

(** ** components/fields/: what each control renders *)

(** The elements the five field components are built from, each with the
    props the components give it. A prop that is left out or [undefined] is
    [None]. [FormikField] is Formik's [<Field>]; its [as_] prop names the
    component it renders as. *)
#[warnings="-register-all"]
Inductive Element :=
  | Div (children : list Element)
  | FormControl (component : option string) (children : list Element)
  | FormLabel (component : option string) (text : option string)
  | FormikField (name : string) (as_ : string) (type : option string)
      (label : option string) (children : list Element)
  | ErrorMessage (name : string) (component : string)
  | FormControlLabel (key : option nat) (value : option string)
      (control : Element) (label : option string)
  | MenuItem (key : nat) (value : string) (text : string)
  | Radio.

Module Fields.

(** TextField.tsx; the [type] prop defaults to ['text']. *)
Definition TextField (name : string) (label : option string)
    (type : option string) : Element :=
  let type := default "text" type in
  Div [ FormikField name "MuiTextField" (Some type) label [];
        ErrorMessage name "div" ].

(** CheckboxField.tsx *)
Definition CheckboxField (name : string) (label : option string) : Element :=
  Div [ FormControlLabel None None
          (FormikField name "Checkbox" (Some "checkbox") None []) label;
        ErrorMessage name "div" ].

(** RadioField.tsx: one labelled radio button per option, keyed by its
    index. *)
Definition RadioField (name : string) (label : option string)
    (options : list string) : Element :=
  FormControl (Some "fieldset")
    [ FormLabel (Some "legend") label;
      FormikField name "RadioGroup" None None
        (imap (λ idx option,
                 FormControlLabel (Some idx) (Some option) Radio (Some option))
           options);
      ErrorMessage name "div" ].

(** SelectField.tsx: one menu item per option, keyed by its index. *)
Definition SelectField (name : string) (label : option string)
    (options : list string) : Element :=
  FormControl None
    [ FormLabel None label;
      FormikField name "Select" None None
        (imap (λ idx option, MenuItem idx option option) options);
      ErrorMessage name "div" ].

(** TextAreaField.tsx *)
Definition TextAreaField (name : string) (label : option string) : Element :=
  FormControl None
    [ FormLabel None label;
      FormikField name "TextareaAutosize" None None [];
      ErrorMessage name "div" ].

End Fields.

(** The element a control of [FormField] stands for: the component called
    with the props [FormField] passes. *)
Definition render_control (control : Control) : Element :=
  match control with
  | TextField n l t => Fields.TextField n l (Some t)
  | CheckboxField n l => Fields.CheckboxField n l
  | RadioField n l choices => Fields.RadioField n l choices
  | SelectField n l choices => Fields.SelectField n l choices
  | TextAreaField n l => Fields.TextAreaField n l
  end.

(** The names Formik fields are bound to inside an element, in document
    order; a field handed over as a [control] prop counts. *)
Fixpoint field_names (e : Element) : list string :=
  match e with
  | Div children | FormControl _ children => flat_map field_names children
  | FormikField n _ _ _ children => n :: flat_map field_names children
  | FormControlLabel _ _ control _ => field_names control
  | _ => []
  end.

(** The names error displays are bound to inside an element. *)
Fixpoint error_names (e : Element) : list string :=
  match e with
  | Div children | FormControl _ children
  | FormikField _ _ _ _ children => flat_map error_names children
  | ErrorMessage n _ => [n]
  | FormControlLabel _ _ control _ => error_names control
  | _ => []
  end.

(** The input types Formik fields are given inside an element. *)
Fixpoint field_types (e : Element) : list (option string) :=
  match e with
  | Div children | FormControl _ children => flat_map field_types children
  | FormikField _ _ t _ children => t :: flat_map field_types children
  | FormControlLabel _ _ control _ => field_types control
  | _ => []
  end.

(** The choices an element offers: key, value and displayed text of every
    element that carries a value. *)
Fixpoint choices (e : Element) : list (option nat * string * option string) :=
  match e with
  | Div children | FormControl _ children
  | FormikField _ _ _ _ children => flat_map choices children
  | FormControlLabel k (Some v) _ l => [(k, v, l)]
  | MenuItem k v t => [(Some k, v, Some t)]
  | _ => []
  end.

(** What the form shows for its fields: the element of every slot that holds
    a control ([null] slots show nothing). *)
Definition form_elements {Schema} (fields : list (Field Schema))
    : list Element :=
  omap (λ slot, render_control <$> slot.2) (render_fields fields).

Definition form_field_names {Schema} (fields : list (Field Schema))
    : list string :=
  flat_map field_names (form_elements fields).

(** An event the rendered form can produce: an edit comes from a Formik field
    that is on the page. *)
Definition user_event {Schema} (fields : list (Field Schema)) (e : Event)
    : Prop :=
  match e with
  | Change n _ => n ∈ form_field_names fields
  | _ => True
  end.

(** The values satisfy the aggregate contract. *)
Definition accepted `{AnySchema Schema} (fields : list (Field Schema))
    (vals : gmap string Value) : Prop :=
  map_Forall (λ n rule, isValidSync rule (vals !! n) = true)
    (generateValidationSchema fields).

(** How many of the events are settlements of a promise. *)
Definition settlements (events : list Event) : nat :=
  length (filter (λ e, is_settlement e = true) events).

(** ** Sample constraints, after the rules of App.tsx *)

Inductive SampleRule :=
  | required (message : string)
  | email (message : string)
  | optional.

#[global] Instance SampleRule_eq_dec : EqDecision SampleRule.
Proof. solve_decision. Defined.

Definition contains_at (s : string) : bool :=
  bool_decide ("@"%char ∈ list_ascii_of_string s).

#[global] Instance SampleRule_schema : AnySchema SampleRule := λ rule v,
  match rule, v with
  | required _, Some (VStr s) => negb (bool_decide (s = ""))
  | required _, Some (VBool _) => true
  | required _, None => false
  | email _, Some (VStr s) => contains_at s
  | email _, _ => false
  | optional, _ => true
  end.

(** ** Sample forms *)

(** A descriptor with a kind, a name and possibly a rule, nothing else. *)
Definition descriptor (type name : string) (validation : option SampleRule)
    : Field SampleRule :=
  mkField type name None None None validation.

(** A sign-up form in the manner of App.tsx, its [submit] pseudo-field last. *)
Definition signup_fields : list (Field SampleRule) :=
  [ descriptor "text" "username" (Some (required "Please enter your username"));
    descriptor "email" "email" (Some (email "Please enter a valid email"));
    descriptor "checkbox" "subscribe" None;
    mkField "submit" "submit" None (Some "Submit") None None ].

(** Two descriptors share the name [contact] and each declares a rule. *)
Definition clash_fields : list (Field SampleRule) :=
  [ descriptor "text" "contact" (Some (required "Contact is required"));
    descriptor "email" "contact" (Some (email "Contact must be an email")) ].

(** The same two descriptors, the other way round. *)
Definition clash_fields_swapped : list (Field SampleRule) :=
  [ descriptor "email" "contact" (Some (email "Contact must be an email"));
    descriptor "text" "contact" (Some (required "Contact is required")) ].

(** Two descriptors share the name [contact]; only the first declares a rule. *)
Definition clash_rule_first : list (Field SampleRule) :=
  [ descriptor "text" "contact" (Some (required "Contact is required"));
    descriptor "textarea" "contact" None ].

(** A descriptor of a kind without a [case] declares a rule. *)
Definition captcha_fields : list (Field SampleRule) :=
  [ descriptor "text" "username" (Some (required "Please enter your username"));
    descriptor "captcha" "token" (Some (required "Please solve the captcha")) ].

(** The same, followed by a descriptor that reuses its name with another rule. *)
Definition captcha_then_email : list (Field SampleRule) :=
  [ descriptor "captcha" "contact" (Some (required "Please solve the captcha"));
    descriptor "email" "contact" (Some (email "Contact must be an email")) ].

(** A descriptor named [__proto__] that declares a rule. *)
Definition proto_fields : list (Field SampleRule) :=
  [ descriptor "text" "__proto__" (Some (required "This is required")) ].

(** Two descriptors named [__proto__], each with a rule. *)
Definition proto_twice : list (Field SampleRule) :=
  [ descriptor "text" "__proto__" (Some (required "This is required"));
    descriptor "email" "__proto__" (Some (email "This must be an email")) ].

(** A descriptor of a kind without a [case], named [__proto__], with a rule. *)
Definition captcha_proto : list (Field SampleRule) :=
  [ descriptor "captcha" "__proto__" (Some (required "Please solve the captcha")) ].

(** The callback of App.tsx: it rejects for the user name [error] and resolves
    otherwise. *)
Definition app_onSubmit : SubmitCallback := λ vals,
  if decide (vals !! "username" = Some (VStr "error"))
  then Some (Rejected "Submission failed")
  else Some Resolved.

(** The sign-up form after the user has typed a name and an address. *)
Definition signup_typed (user : string) : FormState :=
  run signup_fields
    [Change "username" (VStr user); Change "email" (VStr "bob@x.com")].

(** The user typed the name [error], submitted, saw the callback reject, and
    typed another name. *)
Definition signup_retry : FormState :=
  run signup_fields
    [Change "username" (VStr "error"); Change "email" (VStr "bob@x.com");
     Submit; Settle (Rejected "Submission failed");
     Change "username" (VStr "bob")].

(** * Properties *)

(** ** Property assignment *)

Section assignment.
Context {A : Type}.
Implicit Types (obj : gmap string A) (key n : string) (v : A).

Lemma lookup_assign key n v obj :
  assign key v obj !! n
  = if decide (key = n ∧ n ≠ "__proto__") then Some v else obj !! n.
Proof.
  unfold assign. destruct (decide (key = "__proto__")) as [->|Hkey].
  - rewrite decide_False; [done|]. by intros [<- ?].
  - destruct (decide (key = n)) as [<-|Hne].
    + by rewrite lookup_insert_eq, decide_True.
    + rewrite lookup_insert_ne by done. rewrite decide_False; [done|].
      by intros [? _].
Qed.

Lemma lookup_assign_eq key v obj :
  key ≠ "__proto__" → assign key v obj !! key = Some v.
Proof. intros Hkey. by rewrite lookup_assign, decide_True. Qed.

Lemma lookup_assign_ne key n v obj :
  key ≠ n → assign key v obj !! n = obj !! n.
Proof.
  intros Hne. rewrite lookup_assign, decide_False; [done|]. by intros [? _].
Qed.

Lemma lookup_assign_proto key v obj :
  assign key v obj !! "__proto__" = obj !! "__proto__".
Proof. rewrite lookup_assign, decide_False; [done|]. by intros [_ ?]. Qed.

Lemma size_assign_le key v obj : size (assign key v obj) ≤ S (size obj).
Proof.
  unfold assign. case_decide; [lia|].
  rewrite map_size_insert. case_match; unfold id; lia.
Qed.

Lemma size_assign_present key v obj :
  is_Some (obj !! key) ∨ key = "__proto__" →
  size (assign key v obj) = size obj.
Proof.
  unfold assign. intros Hkey. case_decide; [done|].
  destruct Hkey as [[x Hx]|Hkey]; [|done].
  by rewrite map_size_insert_Some.
Qed.

Lemma assign_union_l key v obj1 obj2 :
  assign key v (obj1 ∪ obj2) = assign key v obj1 ∪ obj2.
Proof. unfold assign. case_decide; [done|]. by rewrite insert_union_l. Qed.
End assignment.

(** ** The validation contract as a map *)

Section contract.
Context {Schema : Type}.
Implicit Types (fields pre post : list (Field Schema)).
Implicit Types (f g : Field Schema) (shape : gmap string Schema).

Lemma generateValidationSchema_snoc fields f :
  generateValidationSchema (fields ++ [f])
  = shape_assign (generateValidationSchema fields) f.
Proof. unfold generateValidationSchema. by rewrite foldl_snoc. Qed.

Lemma generateValidationSchema_app pre post :
  generateValidationSchema (pre ++ post)
  = foldl shape_assign (generateValidationSchema pre) post.
Proof. unfold generateValidationSchema. by rewrite foldl_app. Qed.

Lemma lookup_shape_assign_ne shape f n :
  name f ≠ n → shape_assign shape f !! n = shape !! n.
Proof.
  intros Hne. unfold shape_assign.
  destruct (validation f); [by rewrite lookup_assign_ne|done].
Qed.

Lemma lookup_shape_assign_rule shape f c :
  validation f = Some c → name f ≠ "__proto__" →
  shape_assign shape f !! name f = Some c.
Proof.
  intros Hc Hname. unfold shape_assign. rewrite Hc.
  by apply lookup_assign_eq.
Qed.

Lemma lookup_shape_assign_proto shape f :
  shape_assign shape f !! "__proto__" = shape !! "__proto__".
Proof.
  unfold shape_assign. destruct (validation f); [|done].
  apply lookup_assign_proto.
Qed.

Lemma shape_assign_no_rule shape f :
  validation f = None → shape_assign shape f = shape.
Proof. intros Hc. unfold shape_assign. by rewrite Hc. Qed.

(** Fields visited later leave the entry under [n] alone unless one of them
    declares a rule under [n]. *)
Lemma foldl_shape_assign_untouched post shape n :
  (∀ g, g ∈ post → name g = n → validation g = None) →
  foldl shape_assign shape post !! n = shape !! n.
Proof.
  revert shape. induction post as [|g post IH]; intros shape Hpost; [done|].
  cbn [foldl]. rewrite IH.
  - destruct (decide (name g = n)) as [Hn|Hn].
    + rewrite shape_assign_no_rule; [done|].
      apply Hpost; [left|done].
    + by apply lookup_shape_assign_ne.
  - intros h Hh. apply Hpost. by right.
Qed.

(** No field ever creates an entry under [__proto__]. *)
Lemma foldl_shape_assign_proto post shape :
  foldl shape_assign shape post !! "__proto__" = shape !! "__proto__".
Proof.
  revert shape. induction post as [|g post IH]; intros shape; [done|].
  cbn [foldl]. by rewrite IH, lookup_shape_assign_proto.
Qed.

(** Every entry is the rule of a visited field, or was there before. *)
Lemma foldl_shape_assign_origin post shape n c :
  foldl shape_assign shape post !! n = Some c →
  shape !! n = Some c
  ∨ ∃ g, g ∈ post ∧ name g = n ∧ validation g = Some c.
Proof.
  revert shape. induction post as [|g post IH]; intros shape Hn; [by left|].
  cbn [foldl] in Hn. destruct (IH _ Hn) as [Hg|(h & Hh & Hname & Hrule)].
  - unfold shape_assign in Hg. destruct (validation g) as [r|] eqn:Hr.
    + rewrite lookup_assign in Hg.
      destruct (decide (name g = n ∧ n ≠ "__proto__")) as [[Hname _]|_].
      * simplify_eq. right. exists g. split; [left|done].
      * by left.
    + by left.
  - right. exists h. split; [by right|done].
Qed.

Lemma generateValidationSchema_last_rule pre f post c :
  validation f = Some c →
  name f ≠ "__proto__" →
  (∀ g, g ∈ post → name g = name f → validation g = None) →
  generateValidationSchema (pre ++ f :: post) !! name f = Some c.
Proof.
  intros Hc Hname Hpost.
  rewrite generateValidationSchema_app. cbn [foldl].
  rewrite foldl_shape_assign_untouched by done.
  by apply lookup_shape_assign_rule.
Qed.

Lemma generateValidationSchema_origin fields n c :
  generateValidationSchema fields !! n = Some c →
  ∃ g, g ∈ fields ∧ name g = n ∧ validation g = Some c.
Proof.
  intros Hn. apply foldl_shape_assign_origin in Hn as [Hn|Hn]; [|done].
  by rewrite lookup_empty in Hn.
Qed.

Lemma generateValidationSchema_proto fields :
  generateValidationSchema fields !! "__proto__" = None.
Proof.
  unfold generateValidationSchema. by rewrite foldl_shape_assign_proto.
Qed.

Lemma generateValidationSchema_no_rule fields n :
  (∀ g, g ∈ fields → name g = n → validation g = None) →
  generateValidationSchema fields !! n = None.
Proof.
  intros Hn. unfold generateValidationSchema.
  by rewrite foldl_shape_assign_untouched.
Qed.

(** A field that declares a rule under a name other than [__proto__] always
    leaves an entry under its name. *)
Lemma generateValidationSchema_is_Some fields f :
  f ∈ fields → is_Some (validation f) → name f ≠ "__proto__" →
  is_Some (generateValidationSchema fields !! name f).
Proof.
  induction fields as [|g fields IH] using rev_ind; intros Hf Hrule Hname.
  - by apply elem_of_nil in Hf.
  - rewrite generateValidationSchema_snoc.
    destruct (decide (name g = name f)) as [Hn|Hn].
    + rewrite <- Hn. unfold shape_assign.
      destruct (validation g) as [r|] eqn:Hr.
      * rewrite lookup_assign_eq by congruence. by eexists.
      * rewrite Hn. apply IH; [|done..].
        apply elem_of_app in Hf as [Hf|Hf]; [done|].
        apply list_elem_of_singleton in Hf. subst f.
        rewrite Hr in Hrule. by destruct Hrule.
    + rewrite lookup_shape_assign_ne by done. apply IH; [|done..].
      apply elem_of_app in Hf as [Hf|Hf]; [done|].
      apply list_elem_of_singleton in Hf. by subst f.
Qed.
End contract.

(** ** The initial values as a map *)

Section initial.
Context {Schema : Type}.
Implicit Types (fields pre post : list (Field Schema)) (f g : Field Schema).

Lemma initialValues_snoc fields f :
  initialValues (fields ++ [f])
  = assign (name f) (VStr "") (initialValues fields).
Proof. unfold initialValues. by rewrite foldl_snoc. Qed.

Lemma lookup_initialValues fields n :
  initialValues fields !! n
  = if decide (n ∈ name <$> fields ∧ n ≠ "__proto__")
    then Some (VStr "") else None.
Proof.
  induction fields as [|f fields IH] using rev_ind.
  - rewrite decide_False; [done|]. by intros [?%elem_of_nil _].
  - rewrite initialValues_snoc, fmap_app, lookup_assign, IH.
    cbn [fmap list_fmap].
    destruct (decide (name f = n ∧ n ≠ "__proto__")) as [[<- Hn]|Hf].
    + rewrite decide_True; [done|]. split; [|done].
      apply elem_of_app. right. by left.
    + destruct (decide (n ∈ name <$> fields ∧ n ≠ "__proto__"))
        as [[Hin Hn]|Hin].
      * rewrite decide_True; [done|]. split; [|done].
        apply elem_of_app. by left.
      * rewrite decide_False; [done|].
        intros [[Hn|Hn]%elem_of_app Hproto]; [by apply Hin|].
        apply list_elem_of_singleton in Hn. by apply Hf.
Qed.

Lemma lookup_initialValues_name fields f :
  f ∈ fields → name f ≠ "__proto__" →
  initialValues fields !! name f = Some (VStr "").
Proof.
  intros Hf Hname. rewrite lookup_initialValues, decide_True; [done|].
  split; [by apply list_elem_of_fmap_2|done].
Qed.

Lemma dom_initialValues fields :
  dom (initialValues fields)
  = list_to_set (name <$> fields) ∖ {["__proto__"]}.
Proof.
  apply set_eq. intros n.
  rewrite elem_of_dom, lookup_initialValues, elem_of_difference,
    elem_of_list_to_set, not_elem_of_singleton.
  case_decide; split; intros Hn; try done.
Qed.

(** Visiting one more field adds at most one entry. *)
Lemma size_initialValues_le fields :
  size (initialValues fields) ≤ length fields.
Proof.
  induction fields as [|f fields IH] using rev_ind; [done|].
  rewrite initialValues_snoc, length_app. cbn [length].
  pose proof (size_assign_le (name f) (VStr "") (initialValues fields)). lia.
Qed.

Lemma size_foldl_shape_assign_le post (shape : gmap string Schema) :
  size (foldl shape_assign shape post) ≤ size shape + length post.
Proof.
  revert shape. induction post as [|g post IH]; intros shape; [cbn; lia|].
  cbn [foldl length]. etrans; [apply IH|].
  unfold shape_assign. destruct (validation g) as [r|]; [|lia].
  pose proof (size_assign_le (name g) r shape). lia.
Qed.

Lemma size_generateValidationSchema_le fields :
  size (generateValidationSchema fields) ≤ length fields.
Proof.
  unfold generateValidationSchema.
  etrans; [apply size_foldl_shape_assign_le|]. by rewrite map_size_empty.
Qed.
End initial.

(** ** Lists in which a name occurs twice *)

Section clash.
Context {Schema : Type}.
Implicit Types (fields pre post : list (Field Schema)) (f g : Field Schema).

Lemma size_foldl_initial_le post (acc : gmap string Value) :
  size (foldl (λ acc (field : Field Schema), assign (name field) (VStr "") acc)
          acc post)
  ≤ size acc + length post.
Proof.
  revert acc. induction post as [|g post IH]; intros acc; [cbn; lia|].
  cbn [foldl length]. etrans; [apply IH|].
  pose proof (size_assign_le (name g) (VStr "") acc). lia.
Qed.

(** A name that is already a key adds no entry when it is met again. *)
Lemma size_initialValues_repeated pre f post :
  name f ∈ name <$> pre →
  size (initialValues (pre ++ f :: post)) < length (pre ++ f :: post).
Proof.
  intros Hin. unfold initialValues. rewrite foldl_app. cbn [foldl].
  eapply Nat.le_lt_trans; [apply size_foldl_initial_le|].
  pose proof (size_initialValues_le pre) as Hpre.
  unfold initialValues in Hpre.
  rewrite size_assign_present, length_app; [cbn [length]; lia|].
  destruct (decide (name f = "__proto__")) as [Hproto|Hproto]; [by right|].
  left. pose proof (lookup_initialValues pre (name f)) as Hf.
  unfold initialValues in Hf. rewrite Hf, decide_True by done. by eexists.
Qed.

(** A field that leaves no entry under its name makes the contract smaller
    than the list. *)
Lemma size_generateValidationSchema_silent pre f post :
  shape_assign (generateValidationSchema pre) f = generateValidationSchema pre →
  size (generateValidationSchema (pre ++ f :: post)) < length (pre ++ f :: post).
Proof.
  intros Hf. rewrite generateValidationSchema_app. cbn [foldl].
  rewrite Hf.
  eapply Nat.le_lt_trans; [apply size_foldl_shape_assign_le|].
  pose proof (size_generateValidationSchema_le pre).
  rewrite length_app. cbn [length]. lia.
Qed.

Lemma size_generateValidationSchema_repeated pre f post :
  name f ∈ name <$> pre →
  size (generateValidationSchema (pre ++ f :: post)) < length (pre ++ f :: post).
Proof.
  intros (g & Hname & Hg)%list_elem_of_fmap.
  destruct (validation f) as [r|] eqn:Hr;
    [|by apply size_generateValidationSchema_silent, shape_assign_no_rule].
  destruct (decide (name f = "__proto__")) as [Hproto|Hproto].
  { apply size_generateValidationSchema_silent.
    unfold shape_assign, assign. by rewrite Hr, decide_True. }
  rewrite generateValidationSchema_app. cbn [foldl].
  eapply Nat.le_lt_trans; [apply size_foldl_shape_assign_le|].
  unfold shape_assign. rewrite Hr, length_app. cbn [length].
  destruct (generateValidationSchema pre !! name f) as [r'|] eqn:Hpre.
  - rewrite size_assign_present by (left; by eexists).
    pose proof (size_generateValidationSchema_le pre). lia.
  - pose proof (size_assign_le (name f) r (generateValidationSchema pre)).
    apply list_elem_of_split in Hg as (l1 & l2 & ->).
    assert (validation g = None) as Hsilent.
    { destruct (validation g) as [rg|] eqn:Hrg; [|done].
      destruct (generateValidationSchema_is_Some (l1 ++ g :: l2) g) as [x Hx].
      - apply elem_of_app. right. by left.
      - by rewrite Hrg.
      - congruence.
      - congruence. }
    pose proof (size_generateValidationSchema_silent l1 g l2
                  (shape_assign_no_rule _ _ Hsilent)). lia.
Qed.
End clash.

(** ** The validation contract builder *)

(** C1, as stated, at [clash_fields] and at [proto_fields]: in the first the
    earlier descriptor declares the rule [required] and the contract maps its
    name to [email]; in the second the descriptor declares a rule and the
    contract has no entry under its name [__proto__]. *)
Lemma generateValidationSchema_shadowed_rule :
  ¬ (∀ f c, f ∈ clash_fields → validation f = Some c →
       generateValidationSchema clash_fields !! name f = Some c)
  ∧ ¬ (∀ f c, f ∈ proto_fields → validation f = Some c →
         generateValidationSchema proto_fields !! name f = Some c).
Proof.
  split; intros Hclaim.
  - specialize (Hclaim
      (descriptor "text" "contact" (Some (required "Contact is required")))
      (required "Contact is required")).
    assert (generateValidationSchema clash_fields !! "contact"
            = Some (email "Contact must be an email")) as Hlast
      by (vm_compute; reflexivity).
    cbn [name validation descriptor] in Hclaim.
    rewrite Hlast in Hclaim.
    discriminate Hclaim; [left|reflexivity].
  - specialize (Hclaim
      (descriptor "text" "__proto__" (Some (required "This is required")))
      (required "This is required")).
    assert (generateValidationSchema proto_fields !! "__proto__" = None)
      as Hnone by (vm_compute; reflexivity).
    cbn [name validation descriptor] in Hclaim.
    rewrite Hnone in Hclaim.
    discriminate Hclaim; [left|reflexivity].
Qed.

(** An entry of the contract is the rule of the last field of its name that
    declares one. *)
Lemma generateValidationSchema_Some_last {Schema}
    (fields : list (Field Schema)) n c :
  generateValidationSchema fields !! n = Some c →
  ∃ pre f post,
    fields = pre ++ f :: post ∧ name f = n ∧ validation f = Some c
    ∧ ∀ g, g ∈ post → name g = n → validation g = None.
Proof.
  induction fields as [|h fields IH] using rev_ind; intros Hn.
  - by rewrite generateValidationSchema_no_rule in Hn
      by (by intros g ?%elem_of_nil).
  - rewrite generateValidationSchema_snoc in Hn.
    assert (generateValidationSchema fields !! n = Some c →
            (name h = n → validation h = None) →
            ∃ pre f post,
              fields ++ [h] = pre ++ f :: post ∧ name f = n
              ∧ validation f = Some c
              ∧ ∀ g, g ∈ post → name g = n → validation g = None) as Hearlier.
    { intros (pre & f & post & -> & Hname & Hc & Hpost)%IH Hh.
      exists pre, f, (post ++ [h]). split; [by rewrite <- app_assoc|].
      split; [done|]. split; [done|].
      intros g [Hg|Hg]%elem_of_app Hgn; [by apply Hpost|].
      apply list_elem_of_singleton in Hg as ->. by apply Hh. }
    unfold shape_assign in Hn. destruct (validation h) as [r|] eqn:Hr.
    + rewrite lookup_assign in Hn.
      destruct (decide (name h = n ∧ n ≠ "__proto__")) as [[Hname Hp]|Hno].
      * simplify_eq. exists fields, h, []. split; [done|].
        split; [done|]. split; [done|]. by intros g ?%elem_of_nil.
      * apply Hearlier; [done|]. intros Hname. exfalso. apply Hno.
        split; [done|]. intros ->.
        by rewrite generateValidationSchema_proto in Hn.
    + by apply Hearlier.
Qed.

(** C1 (amended). For every list of Field Descriptors, the aggregate
    validation contract has the entry [name -> constraint] exactly when the
    name is not [__proto__] and the constraint is the rule of the last field
    of that name that declares a validationRule. So a field with a rule is
    mapped [name -> constraint] unless a later field of its name declares a
    rule or its name is [__proto__], it has an entry under its name in any
    case unless that name is [__proto__], and a field without a rule is absent
    from the contract unless another field of its name declares one. *)
Theorem generateValidationSchema_exact {Schema} (fields : list (Field Schema)) :
  let contract := generateValidationSchema fields in
  (∀ n c, contract !! n = Some c
     ↔ n ≠ "__proto__"
       ∧ ∃ pre f post,
           fields = pre ++ f :: post ∧ name f = n ∧ validation f = Some c
           ∧ ∀ g, g ∈ post → name g = n → validation g = None)
  ∧ (∀ f, f ∈ fields → is_Some (validation f) → name f ≠ "__proto__" →
       is_Some (contract !! name f))
  ∧ (∀ f, f ∈ fields → validation f = None →
       (∀ g, g ∈ fields → name g = name f → validation g = None) →
       contract !! name f = None).
Proof.
  intros contract. subst contract. split; [|split].
  - intros n c. split.
    + intros Hn. split; [|by apply generateValidationSchema_Some_last].
      intros ->. by rewrite generateValidationSchema_proto in Hn.
    + intros (Hproto & pre & f & post & -> & <- & Hc & Hpost).
      by apply generateValidationSchema_last_rule.
  - apply generateValidationSchema_is_Some.
  - intros f _ _ Hname. by apply generateValidationSchema_no_rule.
Qed.

Lemma generateValidationSchema_exact_witness :
  generateValidationSchema clash_fields !! "contact"
  = Some (email "Contact must be an email")
  ∧ generateValidationSchema signup_fields !! "subscribe" = None.
Proof.
  split.
  - apply (generateValidationSchema_exact clash_fields).
    split; [done|].
    exists [descriptor "text" "contact" (Some (required "Contact is required"))],
      (descriptor "email" "contact" (Some (email "Contact must be an email"))),
      [].
    repeat split. by intros g ?%elem_of_nil.
  - pose proof (generateValidationSchema_exact signup_fields) as Hexact.
    cbv zeta in Hexact. destruct Hexact as (_ & _ & Hnone).
    apply (Hnone (descriptor "checkbox" "subscribe" None)).
    + repeat constructor.
    + reflexivity.
    + intros g Hg Hname.
      repeat (apply elem_of_cons in Hg as [->|Hg]; [by try discriminate|]).
      by apply elem_of_nil in Hg.
Defined.

(** C8, as stated, at [clash_fields]: reordering the two descriptors changes
    the contract. *)
Lemma generateValidationSchema_order_dependent :
  clash_fields ≡ₚ clash_fields_swapped
  ∧ generateValidationSchema clash_fields
    ≠ generateValidationSchema clash_fields_swapped.
Proof.
  split; [apply perm_swap|].
  intros Heq.
  apply (f_equal (λ contract, contract !! "contact")) in Heq.
  vm_compute in Heq. discriminate Heq.
Qed.

(** Among fields whose rule-declaring names are pairwise distinct, an entry
    of the contract is exactly a declared rule under a name other than
    [__proto__]. *)
Lemma lookup_generateValidationSchema_NoDup {Schema}
    (fields : list (Field Schema)) n c :
  NoDup (name <$> filter (λ f, is_Some (validation f)) fields) →
  generateValidationSchema fields !! n = Some c
  ↔ n ≠ "__proto__"
    ∧ ∃ g, g ∈ fields ∧ name g = n ∧ validation g = Some c.
Proof.
  intros Hnodup. split.
  - intros Hn. split; [|by apply generateValidationSchema_origin].
    intros ->. by rewrite generateValidationSchema_proto in Hn.
  - intros (Hproto & g & Hg & <- & Hc).
    apply list_elem_of_split in Hg as (pre & post & ->).
    apply generateValidationSchema_last_rule; [done..|].
    intros h Hh Hname.
    destruct (validation h) as [c'|] eqn:Hc'; [exfalso|done].
    rewrite filter_app, filter_cons_True, fmap_app, fmap_cons in Hnodup
      by (by rewrite Hc).
    apply NoDup_app in Hnodup as (_ & _ & Hnodup).
    apply NoDup_cons in Hnodup as [Hfresh _].
    apply Hfresh. rewrite <- Hname.
    apply list_elem_of_fmap_2, list_elem_of_filter. by rewrite Hc'.
Qed.

(** C8 (amended). The Validation Contract Builder is a function of its
    argument alone, and its result does not depend on the order of the fields
    whenever the fields that declare a validationRule have pairwise distinct
    names: the contract of every permutation of such a list equals the
    contract of the list. *)
Theorem generateValidationSchema_Permutation {Schema}
    (fields fields' : list (Field Schema)) :
  NoDup (name <$> filter (λ f, is_Some (validation f)) fields) →
  fields ≡ₚ fields' →
  generateValidationSchema fields = generateValidationSchema fields'.
Proof.
  intros Hnodup Hperm.
  assert (NoDup (name <$> filter (λ f, is_Some (validation f)) fields'))
    as Hnodup' by (by rewrite <- Hperm).
  apply map_eq. intros n. apply option_eq. intros c.
  rewrite !lookup_generateValidationSchema_NoDup by done.
  split; intros (Hproto & g & Hg & Hrest); (split; [done|]);
    exists g; split; try done.
  - by rewrite <- Hperm.
  - by rewrite Hperm.
Qed.

Lemma generateValidationSchema_Permutation_witness :
  generateValidationSchema signup_fields
  = generateValidationSchema (reverse signup_fields).
Proof.
  apply (generateValidationSchema_Permutation signup_fields
           (reverse signup_fields)).
  - compute_done.
  - symmetry. apply reverse_Permutation.
Defined.

(** ** The initial values *)

(** C2, as stated, at [proto_fields]: the list has a field, and the initial
    values have no entry under its name [__proto__]. *)
Lemma initialValues_without_proto :
  ¬ (∀ f, f ∈ proto_fields →
       initialValues proto_fields !! name f = Some (VStr "")).
Proof.
  intros Hclaim.
  specialize (Hclaim
    (descriptor "text" "__proto__" (Some (required "This is required")))).
  assert (initialValues proto_fields !! "__proto__" = None) as Hnone
    by (vm_compute; reflexivity).
  cbn [name descriptor] in Hclaim. rewrite Hnone in Hclaim.
  discriminate Hclaim. left.
Qed.

(** C2 (amended). For every list of Field Descriptors, the initial values
    mapping has an entry under the name of every field whose name is not
    [__proto__], bound to the empty string whatever the field's kind, and has
    no entry under any other name nor under [__proto__]: its keys are exactly
    the field names other than [__proto__], one entry for each. *)
Theorem initialValues_exact {Schema} (fields : list (Field Schema)) :
  (∀ f, f ∈ fields → name f ≠ "__proto__" →
     initialValues fields !! name f = Some (VStr ""))
  ∧ (∀ n, n ∉ name <$> fields → initialValues fields !! n = None)
  ∧ initialValues fields !! "__proto__" = None
  ∧ dom (initialValues fields)
    = list_to_set (name <$> fields) ∖ {["__proto__"]}
  ∧ size (initialValues fields)
    = length (remove_dups
                (filter (λ n, n ≠ "__proto__") (name <$> fields))).
Proof.
  split; [|split; [|split; [|split]]].
  - intros f. apply lookup_initialValues_name.
  - intros n Hn. rewrite lookup_initialValues, decide_False; [done|].
    by intros [? _].
  - rewrite lookup_initialValues, decide_False; [done|]. by intros [_ ?].
  - apply dom_initialValues.
  - rewrite <- size_dom, dom_initialValues.
    rewrite <- (size_list_to_set (C:=gset string)
                  (remove_dups
                     (filter (λ n, n ≠ "__proto__") (name <$> fields))))
      by apply NoDup_remove_dups.
    f_equal. apply set_eq. intros n.
    rewrite elem_of_difference, !elem_of_list_to_set, elem_of_remove_dups,
      list_elem_of_filter, not_elem_of_singleton.
    tauto.
Qed.

(** ** Two descriptors with one name *)

(** C7, as stated, at [clash_rule_first] and at [proto_twice]: in the first
    the last descriptor named [contact] declares no rule and the contract's
    entry for [contact] is the rule of the first one; in the second both
    descriptors are named [__proto__] and the initial values have no entry
    under that name. *)
Lemma duplicate_name_earlier_rule_survives :
  ¬ (∀ pre f post, clash_rule_first = pre ++ f :: post →
       (∀ g, g ∈ post → name g ≠ name f) →
       generateValidationSchema clash_rule_first !! name f = validation f)
  ∧ ¬ (∀ f, f ∈ proto_twice →
         initialValues proto_twice !! name f = Some (VStr "")).
Proof.
  split; intros Hclaim.
  - specialize (Hclaim
      [descriptor "text" "contact" (Some (required "Contact is required"))]
      (descriptor "textarea" "contact" None) [] eq_refl).
    assert (generateValidationSchema clash_rule_first !! "contact"
            = Some (required "Contact is required")) as Hfirst
      by (vm_compute; reflexivity).
    cbn [name validation descriptor] in Hclaim.
    rewrite Hfirst in Hclaim.
    discriminate Hclaim. intros g Hg. by apply elem_of_nil in Hg.
  - specialize (Hclaim
      (descriptor "text" "__proto__" (Some (required "This is required")))).
    assert (initialValues proto_twice !! "__proto__" = None) as Hnone
      by (vm_compute; reflexivity).
    cbn [name descriptor] in Hclaim. rewrite Hnone in Hclaim.
    discriminate Hclaim. left.
Qed.

(** C7 (amended). For every list containing two Field Descriptors with the
    same name, building the two mappings succeeds and each has fewer entries
    than the list has descriptors. When the name is not [__proto__], the
    initial values mapping has one entry for that name, the empty string, and
    the aggregate validation contract has at most one, taken from the last
    descriptor of that name that declares a validationRule (none when no
    descriptor of that name declares one). When the name is [__proto__],
    neither mapping has an entry for it. *)
Theorem duplicate_name_last_rule_wins {Schema}
    (l1 l2 l3 : list (Field Schema)) (f1 f2 : Field Schema) :
  name f1 = name f2 →
  let fields := l1 ++ f1 :: l2 ++ f2 :: l3 in
  let n := name f1 in
  (n ≠ "__proto__" → initialValues fields !! n = Some (VStr ""))
  ∧ size (initialValues fields) < length fields
  ∧ size (generateValidationSchema fields) < length fields
  ∧ (∀ pre g post c,
       n ≠ "__proto__" →
       fields = pre ++ g :: post → name g = n → validation g = Some c →
       (∀ h, h ∈ post → name h = n → validation h = None) →
       generateValidationSchema fields !! n = Some c)
  ∧ ((∀ g, g ∈ fields → name g = n → validation g = None) →
     generateValidationSchema fields !! n = None)
  ∧ (n = "__proto__" →
     initialValues fields !! n = None
     ∧ generateValidationSchema fields !! n = None).
Proof.
  intros Hname fields n. subst fields n.
  assert (name f2 ∈ name <$> l1 ++ f1 :: l2) as Hin.
  { rewrite <- Hname. apply list_elem_of_fmap_2, elem_of_app. right. by left. }
  assert (l1 ++ f1 :: l2 ++ f2 :: l3 = (l1 ++ f1 :: l2) ++ f2 :: l3) as Hsplit
    by (by rewrite <- app_assoc).
  split; [|split; [|split; [|split; [|split]]]].
  - intros Hproto. apply lookup_initialValues_name; [|done].
    apply elem_of_app. right. by left.
  - rewrite Hsplit. by apply size_initialValues_repeated.
  - rewrite Hsplit. by apply size_generateValidationSchema_repeated.
  - intros pre g post c Hproto -> Hg Hc Hpost. rewrite <- Hg in *.
    by apply generateValidationSchema_last_rule.
  - apply generateValidationSchema_no_rule.
  - intros ->. split; [|apply generateValidationSchema_proto].
    rewrite lookup_initialValues, decide_False; [done|]. by intros [_ ?].
Qed.

Lemma duplicate_name_last_rule_wins_witness :
  initialValues clash_fields !! "contact" = Some (VStr "")
  ∧ size (initialValues clash_fields) < 2
  ∧ generateValidationSchema clash_fields !! "contact"
    = Some (email "Contact must be an email").
Proof.
  pose proof (duplicate_name_last_rule_wins [] [] []
    (descriptor "text" "contact" (Some (required "Contact is required")))
    (descriptor "email" "contact" (Some (email "Contact must be an email")))
    eq_refl) as (Hinit & Hsize & _ & Hlast & _).
  split; [by apply Hinit|]. split; [exact Hsize|].
  apply (Hlast
    [descriptor "text" "contact" (Some (required "Contact is required"))]
    (descriptor "email" "contact" (Some (email "Contact must be an email")))
    [] (email "Contact must be an email")); try done.
  intros h Hh. by apply elem_of_nil in Hh.
Defined.

(** ** Rules of fields that render nothing *)

(** C10, as stated, at [captcha_then_email] and at [captcha_proto]: in the
    first the [captcha] descriptor renders nothing and declares [required],
    and the contract holds [email] under its name; in the second the
    [captcha] descriptor is named [__proto__] and the contract holds nothing
    under that name. *)
Lemma unrecognized_kind_rule_shadowed :
  ¬ (∀ f c, f ∈ captcha_then_email → FormField f = None →
       validation f = Some c →
       generateValidationSchema captcha_then_email !! name f = Some c)
  ∧ ¬ (∀ f c, f ∈ captcha_proto → FormField f = None →
         validation f = Some c →
         generateValidationSchema captcha_proto !! name f = Some c).
Proof.
  split; intros Hclaim.
  - specialize (Hclaim
      (descriptor "captcha" "contact"
         (Some (required "Please solve the captcha")))
      (required "Please solve the captcha")).
    assert (generateValidationSchema captcha_then_email !! "contact"
            = Some (email "Contact must be an email")) as Hlast
      by (vm_compute; reflexivity).
    cbn [name validation descriptor] in Hclaim.
    rewrite Hlast in Hclaim.
    discriminate Hclaim; [left|vm_compute; reflexivity|reflexivity].
  - specialize (Hclaim
      (descriptor "captcha" "__proto__"
         (Some (required "Please solve the captcha")))
      (required "Please solve the captcha")).
    assert (generateValidationSchema captcha_proto !! "__proto__" = None)
      as Hnone by (vm_compute; reflexivity).
    cbn [name validation descriptor] in Hclaim.
    rewrite Hnone in Hclaim.
    discriminate Hclaim; [left|vm_compute; reflexivity|reflexivity].
Qed.

(** A constraint of the contract that rejects the value under its key makes
    the form invalid, and an invalid form has its submit control disabled. *)
Lemma isValid_false `{AnySchema Schema} (fields : list (Field Schema)) st n c :
  generateValidationSchema fields !! n = Some c →
  isValidSync c (values st !! n) = false →
  isValid fields st = false.
Proof.
  intros Hc Hreject. unfold isValid. apply bool_decide_eq_false.
  intros Hall. specialize (Hall n c Hc). cbn beta in Hall. congruence.
Qed.

Lemma submit_disabled_invalid `{AnySchema Schema}
    (fields : list (Field Schema)) st :
  isValid fields st = false → submit_disabled fields st = true.
Proof.
  intros Hinvalid. unfold submit_disabled. rewrite Hinvalid.
  by destruct (isSubmitting st).
Qed.

Ltac kind_listed := repeat constructor.

Lemma FormField_None {Schema} (f : Field Schema) :
  type f ∉ recognized_kinds → FormField f = None.
Proof.
  intros Hkind. unfold FormField. cbv zeta.
  repeat case_bool_decide; try done; exfalso; apply Hkind;
    unfold recognized_kinds.
  - repeat (match goal with
            | Hin : _ ∈ _ :: _ |- _ => apply elem_of_cons in Hin as [->|Hin]
            | Hin : _ ∈ [] |- _ => by apply elem_of_nil in Hin
            end); kind_listed.
  - match goal with Heq : type f = _ |- _ => rewrite Heq end. kind_listed.
  - match goal with Heq : type f = _ |- _ => rewrite Heq end. kind_listed.
  - match goal with Heq : type f = _ |- _ => rewrite Heq end. kind_listed.
  - match goal with Heq : type f = _ |- _ => rewrite Heq end. kind_listed.
Qed.

Lemma FormField_is_Some {Schema} (f : Field Schema) :
  type f ∈ recognized_kinds → is_Some (FormField f).
Proof.
  intros Hkind. unfold FormField, recognized_kinds in *. cbv zeta.
  repeat case_bool_decide; try by eexists.
  exfalso.
  repeat (match goal with
          | Hin : _ ∈ _ :: _ |- _ => apply elem_of_cons in Hin as [Hin|Hin]
          | Hin : _ ∈ [] |- _ => by apply elem_of_nil in Hin
          end); try done.
  all: match goal with Hn : _ ∉ _ |- _ => apply Hn end; rewrite Hkind.
  all: kind_listed.
Qed.

Lemma lookup_render_fields {Schema} (fields : list (Field Schema)) i :
  render_fields fields !! i = (λ g, (i, FormField g)) <$> fields !! i.
Proof. unfold render_fields. apply list_lookup_imap. Qed.

Lemma render_fields_controls {Schema} (fields : list (Field Schema)) :
  (render_fields fields).*2 = FormField <$> fields.
Proof.
  apply list_eq. intros i.
  rewrite !list_lookup_fmap, lookup_render_fields.
  by destruct (fields !! i).
Qed.

(** ** The field renderer *)

(** C6. For every Field Descriptor whose kind is not one of text, password,
    email, number, checkbox, radio, select, textarea, [FormField] returns no
    control, and in any list around it the other fields are rendered as they
    are on their own: one slot per descriptor, at its index, holding what
    [FormField] gives for that descriptor. *)
Theorem FormField_unrecognized {Schema}
    (pre post : list (Field Schema)) (f : Field Schema) :
  type f ∉ recognized_kinds →
  FormField f = None
  ∧ (render_fields (pre ++ f :: post)).*2
    = (FormField <$> pre) ++ None :: (FormField <$> post)
  ∧ (∀ i g, (pre ++ f :: post) !! i = Some g →
       render_fields (pre ++ f :: post) !! i = Some (i, FormField g)).
Proof.
  intros Hkind.
  pose proof (FormField_None f Hkind) as Hnone.
  split; [done|]. split.
  - by rewrite render_fields_controls, fmap_app, fmap_cons, Hnone.
  - intros i g Hi. by rewrite lookup_render_fields, Hi.
Qed.

Lemma FormField_unrecognized_witness :
  FormField (mkField (Schema:=SampleRule) "submit" "submit" None
               (Some "Submit") None None) = None
  ∧ (render_fields signup_fields).*2
    = [ Some (TextField "username" None "text");
        Some (TextField "email" None "email");
        Some (CheckboxField "subscribe" None);
        None ].
Proof.
  pose proof (FormField_unrecognized
    [ descriptor "text" "username" (Some (required "Please enter your username"));
      descriptor "email" "email" (Some (email "Please enter a valid email"));
      descriptor "checkbox" "subscribe" None ]
    []
    (mkField "submit" "submit" None (Some "Submit") None None)) as Hthm.
  destruct Hthm as (Hnone & Hrest & _); [compute_done|].
  split; [exact Hnone|exact Hrest].
Defined.

(** ** The submit adapter *)

Lemma handleSubmit_settles {Schema} (fields : list (Field Schema))
    (onSubmit : SubmitCallback) vals outcome st :
  onSubmit vals = Some outcome →
  handleSubmit fields onSubmit vals st
  = handleSubmit_settled fields outcome (invoke vals st).
Proof. intros Hsettle. unfold handleSubmit, seq. by rewrite Hsettle. Qed.

(** C3. For every submit callback that resolves without error, after
    [handleSubmit] has run the success message is set and is the one status
    line displayed, the field values are the initial values again, no error
    message is left, and the in-flight flag is down. *)
Theorem handleSubmit_resolved {Schema} (fields : list (Field Schema))
    (onSubmit : SubmitCallback) (vals : gmap string Value) (st : FormState) :
  onSubmit vals = Some Resolved →
  let st' := handleSubmit fields onSubmit vals st in
  successMessage st' = Some success_text
  ∧ render_status st' = [("green", success_text)]
  ∧ values st' = initialValues fields
  ∧ errorMessage st' = None
  ∧ isSubmitting st' = false
  ∧ calls st' = vals :: calls st.
Proof.
  intros Hresolved st'. subst st'.
  rewrite (handleSubmit_settles _ _ _ Resolved) by done.
  by repeat split.
Qed.

Lemma handleSubmit_resolved_witness :
  errorMessage signup_retry = Some failure_text
  ∧ let st' := handleSubmit signup_fields app_onSubmit
                 (values signup_retry) signup_retry in
    render_status st' = [("green", success_text)]
    ∧ values st' = initialValues signup_fields
    ∧ errorMessage st' = None.
Proof.
  split; [vm_compute; reflexivity|].
  pose proof (handleSubmit_resolved signup_fields app_onSubmit
    (values signup_retry) signup_retry) as Hthm.
  destruct Hthm as (_ & Hstatus & Hvalues & Herror & _).
  - vm_compute. reflexivity.
  - split; [exact Hstatus|]. split; [exact Hvalues|exact Herror].
Defined.

(** C4. For every submit callback that rejects or throws, after
    [handleSubmit] has run the fixed failure message is set and is the one
    status line displayed, whatever the error was; no success message is left;
    the field values are those the form held before; the in-flight flag is
    down, so that a form that was valid and changed has its submit control
    enabled and a second submit attempt calls the callback again. *)
Theorem handleSubmit_rejected `{AnySchema Schema} (fields : list (Field Schema))
    (onSubmit : SubmitCallback) (vals : gmap string Value) (st : FormState)
    (error : string) :
  onSubmit vals = Some (Rejected error) →
  let st' := handleSubmit fields onSubmit vals st in
  errorMessage st' = Some failure_text
  ∧ render_status st' = [("red", failure_text)]
  ∧ successMessage st' = None
  ∧ values st' = values st
  ∧ isSubmitting st' = false
  ∧ (∀ onSubmit' error', onSubmit' vals = Some (Rejected error') →
       handleSubmit fields onSubmit' vals st = st')
  ∧ (isValid fields st = true → dirty fields st = true →
     submit_disabled fields st' = false
     ∧ calls (step fields st' Submit) = values st :: calls st').
Proof.
  intros Hrejected st'. subst st'.
  rewrite (handleSubmit_settles _ _ _ (Rejected error)) by done.
  do 5 (split; [done|]). split.
  - intros onSubmit' error' Hrejected'.
    by rewrite (handleSubmit_settles _ _ _ (Rejected error')).
  - intros Hvalid Hdirty.
    assert (submit_disabled fields
              (handleSubmit_settled fields (Rejected error) (invoke vals st))
            = false) as Henabled.
    { unfold submit_disabled, isValid, dirty in *. cbn.
      by rewrite Hvalid, Hdirty. }
    split; [done|]. cbn [step]. by rewrite Henabled.
Qed.

Lemma handleSubmit_rejected_witness :
  let st := setSubmitting true (signup_typed "error") in
  let st' := handleSubmit signup_fields app_onSubmit (values st) st in
  render_status st' = [("red", failure_text)]
  ∧ values st' = values st
  ∧ submit_disabled signup_fields st' = false.
Proof.
  pose proof (handleSubmit_rejected signup_fields app_onSubmit
    (values (setSubmitting true (signup_typed "error")))
    (setSubmitting true (signup_typed "error")) "Submission failed") as Hthm.
  destruct Hthm as (_ & Hstatus & _ & Hvalues & _ & _ & Hagain).
  - vm_compute. reflexivity.
  - split; [exact Hstatus|]. split; [exact Hvalues|].
    apply Hagain; vm_compute; reflexivity.
Defined.

(** ** The submit control *)

(** C5. The submit control is disabled exactly when some constraint of the
    aggregate validation contract rejects the value held under its key, or the
    values are the initial values, or a submission is in flight; in
    particular, while a key whose constraint rejects the empty string still
    holds the empty string, a submit attempt changes nothing and the external
    callback is not invoked. *)
Theorem submit_disabled_exactly `{AnySchema Schema}
    (fields : list (Field Schema)) (st : FormState) :
  (submit_disabled fields st = true
   ↔ ¬ map_Forall (λ n rule, isValidSync rule (values st !! n) = true)
         (generateValidationSchema fields)
     ∨ values st = initialValues fields
     ∨ isSubmitting st = true)
  ∧ (∀ n rule,
       generateValidationSchema fields !! n = Some rule →
       isValidSync rule (Some (VStr "")) = false →
       values st !! n = Some (VStr "") →
       calls (step fields st Submit) = calls st
       ∧ ∀ onSubmit, calls (submitForm fields onSubmit st) = calls st).
Proof.
  split.
  - unfold submit_disabled, isValid, dirty.
    rewrite !orb_true_iff, !negb_true_iff, !bool_decide_eq_false.
    split.
    + intros [[Hflight|Hinvalid]|Hclean]; [by right; right|by left|].
      right. left.
      by destruct (decide (values st = initialValues fields)).
    + intros [Hinvalid|[Hclean|Hflight]];
        [by left; right|right; by intros []|by left; left].
  - intros n rule Hrule Hrequired Hempty.
    assert (submit_disabled fields st = true) as Hdisabled.
    { eapply submit_disabled_invalid, isValid_false; [done|].
      by rewrite Hempty. }
    split.
    + cbn [step]. by rewrite Hdisabled.
    + intros onSubmit. unfold submitForm. by rewrite Hdisabled.
Qed.

Lemma submit_disabled_exactly_witness :
  let st := run signup_fields [Change "email" (VStr "bob@x.com")] in
  submit_disabled signup_fields st = true
  ∧ calls (step signup_fields st Submit) = calls st
  ∧ calls (submitForm signup_fields app_onSubmit st) = calls st.
Proof.
  pose proof (submit_disabled_exactly signup_fields
    (run signup_fields [Change "email" (VStr "bob@x.com")])) as [_ Hguard].
  specialize (Hguard "username" (required "Please enter your username")).
  destruct Hguard as [Hstep Hform]; try (vm_compute; reflexivity).
  split; [vm_compute; reflexivity|].
  split; [exact Hstep|apply Hform].
Defined.

(** ** The two messages *)

Lemma handleSubmit_settled_exclusive {Schema} (fields : list (Field Schema))
    outcome st :
  exclusive (handleSubmit_settled fields outcome st).
Proof. destruct outcome; [by right|by left]. Qed.

Lemma step_exclusive `{AnySchema Schema} (fields : list (Field Schema)) st e :
  exclusive st → exclusive (step fields st e).
Proof.
  intros Hst. destruct e as [n v| |outcome]; cbn [step].
  - exact Hst.
  - by destruct (submit_disabled fields st).
  - destruct (isSubmitting st); [|done].
    apply handleSubmit_settled_exclusive.
Qed.

Lemma foldl_step_exclusive `{AnySchema Schema} (fields : list (Field Schema))
    events st :
  exclusive st → exclusive (foldl (step fields) st events).
Proof.
  revert st. induction events as [|e events IH]; intros st Hst; [done|].
  cbn [foldl]. by apply IH, step_exclusive.
Qed.

Lemma render_status_exclusive st :
  exclusive st → length (render_status st) ≤ 1.
Proof.
  unfold render_status, status_div.
  intros [-> | ->]; cbn [app]; [|rewrite app_nil_r];
    repeat case_match; cbn; lia.
Qed.

(** The adapter's calls after the [await], run one after the other, end in
    the state [handleSubmit_settled] gives. *)
Lemma states_through_last {Schema} (fields : list (Field Schema)) outcome st :
  last (states_through (handleSubmit_settled_calls fields outcome) st)
  = Some (handleSubmit_settled fields outcome st).
Proof. by destruct outcome. Qed.

(** While the adapter handles a settlement, every state before its last call
    is still in flight. *)
Lemma step_renders_quiet `{AnySchema Schema} (fields : list (Field Schema))
    st e :
  exclusive st →
  Forall (λ st', isSubmitting st' = false → exclusive st')
    (step_renders fields st e).
Proof.
  intros Hst. destruct e as [n v| |outcome]; cbn [step_renders].
  - apply Forall_cons. split; [|by apply Forall_nil].
    intros _. by apply step_exclusive.
  - apply Forall_cons. split; [|by apply Forall_nil].
    intros _. by apply step_exclusive.
  - destruct (isSubmitting st) eqn:Hflight; [|by apply Forall_nil].
    destruct outcome; cbn [handleSubmit_settled_calls states_through];
      repeat (apply Forall_cons; split); try (by apply Forall_nil);
      cbn; intros Hidle; first [congruence|by right|by left].
Qed.

Lemma renders_from_quiet `{AnySchema Schema} (fields : list (Field Schema))
    events st :
  exclusive st →
  Forall (λ st', isSubmitting st' = false → exclusive st')
    (renders_from fields st events).
Proof.
  revert st. induction events as [|e events IH]; intros st Hst;
    [by apply Forall_nil|].
  cbn [renders_from]. apply Forall_app. split.
  - by apply step_renders_quiet.
  - by apply IH, step_exclusive.
Qed.

(** What is rendered while the last event is handled is among the states
    rendered. *)
Lemma rendered_snoc `{AnySchema Schema} (fields : list (Field Schema))
    events e st' :
  st' ∈ step_renders fields (run fields events) e →
  st' ∈ rendered fields (events ++ [e]).
Proof.
  unfold rendered, run. intros Hst'. apply elem_of_cons. right.
  revert Hst'. generalize (initialState fields).
  induction events as [|e' events IH]; intros st Hst'; cbn [app renders_from].
  - apply elem_of_app. by left.
  - apply elem_of_app. right. by apply IH.
Qed.

(** C9, as stated, on the sign-up form: the callback rejects, the user edits
    and submits again, the callback resolves. Between the two calls with
    which the adapter handles the resolution a state is rendered in which
    both messages are set and both status lines are displayed. *)
Lemma messages_both_set_in_passing :
  ∃ st,
    st ∈ rendered signup_fields
           [Change "username" (VStr "error"); Change "email" (VStr "bob@x.com");
            Submit; Settle (Rejected "Submission failed");
            Change "username" (VStr "bob"); Submit; Settle Resolved]
    ∧ successMessage st = Some success_text
    ∧ errorMessage st = Some failure_text
    ∧ render_status st = [("green", success_text); ("red", failure_text)].
Proof.
  exists (setSuccessMessage (Some success_text)
            (step signup_fields signup_retry Submit)).
  split; [|by vm_compute].
  apply (rendered_snoc signup_fields
           [Change "username" (VStr "error"); Change "email" (VStr "bob@x.com");
            Submit; Settle (Rejected "Submission failed");
            Change "username" (VStr "bob"); Submit]
           (Settle Resolved)).
  cbn [step_renders].
  assert (isSubmitting
            (run signup_fields
               [Change "username" (VStr "error");
                Change "email" (VStr "bob@x.com");
                Submit; Settle (Rejected "Submission failed");
                Change "username" (VStr "bob"); Submit]) = true) as ->
    by (vm_compute; reflexivity).
  cbn [handleSubmit_settled_calls states_through]. left.
Qed.

(** C9 (amended). In every state in which the form rests after any sequence
    of edits, submit attempts and callback outcomes, the success message and
    the error message are never both set, and at most one status line is
    displayed. Among all the states rendered on the way, the two messages are
    both set only while the submission is still flagged in flight, between
    the calls with which [handleSubmit] handles a settlement. *)
Theorem messages_exclusive `{AnySchema Schema} (fields : list (Field Schema))
    (events : list Event) :
  let st := run fields events in
  (¬ (is_Some (successMessage st) ∧ is_Some (errorMessage st))
   ∧ length (render_status st) ≤ 1)
  ∧ Forall (λ st', isSubmitting st' = false →
                   ¬ (is_Some (successMessage st')
                      ∧ is_Some (errorMessage st'))
                   ∧ length (render_status st') ≤ 1)
      (rendered fields events).
Proof.
  intros st.
  assert (∀ st', exclusive st' →
            ¬ (is_Some (successMessage st') ∧ is_Some (errorMessage st'))
            ∧ length (render_status st') ≤ 1) as Hexclusive.
  { intros st' Hst'. split; [|by apply render_status_exclusive].
    intros [[s Hs] [e He]]. destruct Hst'; congruence. }
  split.
  - apply Hexclusive, foldl_step_exclusive. by left.
  - unfold rendered. apply Forall_cons. split.
    + intros _. apply Hexclusive. by left.
    + eapply Forall_impl; [apply renders_from_quiet; by left|].
      intros st' Hst' Hidle. by apply Hexclusive, Hst'.
Qed.

(** ** Further properties of the adapter and the renderer *)

(** X1. A submit attempt leaves both messages as they are: the message of the
    previous attempt stays displayed while the callback is in flight, and so
    does an edit. *)
Theorem submit_keeps_messages `{AnySchema Schema} (fields : list (Field Schema))
    (st : FormState) :
  render_status (step fields st Submit) = render_status st
  ∧ successMessage (step fields st Submit) = successMessage st
  ∧ errorMessage (step fields st Submit) = errorMessage st
  ∧ ∀ n v, render_status (step fields st (Change n v)) = render_status st.
Proof.
  cbn [step]. by destruct (submit_disabled fields st).
Qed.

Lemma step_in_flight `{AnySchema Schema} (fields : list (Field Schema)) st e :
  isSubmitting st = true → is_settlement e = false →
  isSubmitting (step fields st e) = true
  ∧ calls (step fields st e) = calls st.
Proof.
  intros Hflight He. destruct e as [n v| |outcome]; [done| |done].
  cbn [step]. unfold submit_disabled. by rewrite Hflight.
Qed.

(** X2. While the callback in flight has not settled, the form stays in
    flight whatever the user does: the submit control is disabled and the
    callback is not invoked again. *)
Theorem in_flight_until_settled `{AnySchema Schema}
    (fields : list (Field Schema)) (events : list Event) (st : FormState) :
  isSubmitting st = true →
  Forall (λ e, is_settlement e = false) events →
  let st' := foldl (step fields) st events in
  isSubmitting st' = true
  ∧ submit_disabled fields st' = true
  ∧ calls st' = calls st.
Proof.
  intros Hflight Hevents st'. subst st'.
  assert (isSubmitting (foldl (step fields) st events) = true
          ∧ calls (foldl (step fields) st events) = calls st) as [Hf Hc].
  { revert st Hflight.
    induction Hevents as [|e events He _ IH]; intros st Hflight; [done|].
    cbn [foldl].
    destruct (step_in_flight fields st e Hflight He) as [Hf Hc].
    rewrite <- Hc. by apply IH. }
  split; [done|]. split; [|done].
  unfold submit_disabled. by rewrite Hf.
Qed.

Lemma in_flight_until_settled_witness :
  let st := run signup_fields
              [Change "username" (VStr "bob"); Change "email" (VStr "bob@x.com");
               Submit; Change "username" (VStr "rob"); Submit] in
  isSubmitting st = true ∧ length (calls st) = 1.
Proof.
  pose proof (in_flight_until_settled signup_fields
    [Change "username" (VStr "rob"); Submit]
    (run signup_fields
       [Change "username" (VStr "bob"); Change "email" (VStr "bob@x.com");
        Submit])) as Hthm.
  destruct Hthm as (Hflight & _ & Hcalls).
  - vm_compute. reflexivity.
  - repeat constructor.
  - split; [exact Hflight|].
    unfold run in *. cbn [foldl] in Hcalls |- *. cbn [foldl].
    by rewrite Hcalls.
Defined.

(** X3. For every Field Descriptor of a recognised kind, [FormField] returns
    one control, bound to the descriptor's name and given its label; the
    single-line kinds pass their kind on as the input type. *)
Theorem FormField_recognized {Schema} (f : Field Schema) :
  type f ∈ recognized_kinds →
  ∃ control, FormField f = Some control
    ∧ control_name control = name f
    ∧ control_label control = label f
    ∧ (type f ∈ ["text"; "password"; "email"; "number"] →
       control = TextField (name f) (label f) (type f)).
Proof.
  intros [control Hcontrol]%FormField_is_Some. exists control.
  split; [done|]. revert Hcontrol. unfold FormField. cbv zeta.
  repeat case_bool_decide; intros [= <-]; done.
Qed.

Lemma FormField_recognized_witness :
  FormField (descriptor "password" "secret" None)
  = Some (TextField "secret" None "password").
Proof.
  destruct (FormField_recognized (descriptor "password" "secret" None))
    as (control & -> & _ & _ & Htext); [compute_done|].
  f_equal. apply Htext. compute_done.
Defined.

(** X4. A radio or select descriptor without [options] renders its control
    with no choices, and one with [options] renders them in order. *)
Theorem FormField_choices {Schema} (f : Field Schema) :
  type f = "radio" ∨ type f = "select" →
  ∃ control, FormField f = Some control
    ∧ control_options control = default [] (options f).
Proof.
  intros [Hkind|Hkind]; unfold FormField; rewrite Hkind; cbv zeta;
    eexists; (split; [reflexivity|done]).
Qed.

Lemma FormField_choices_witness :
  ∃ control, FormField (descriptor "select" "country" None) = Some control
    ∧ control_options control = [].
Proof.
  apply (FormField_choices (descriptor "select" "country" None)).
  by right.
Defined.

(** ** What the controls render *)

Lemma flat_map_imap_nil {A B C} (g : B → list C) (f : nat → A → B)
    (l : list A) :
  (∀ i x, g (f i x) = []) → flat_map g (imap f l) = [].
Proof.
  revert f. induction l as [|x l IH]; intros f Hg; [done|].
  cbn [imap flat_map]. rewrite Hg, IH; [done|].
  intros i y. apply Hg.
Qed.

Lemma flat_map_imap_singleton {A B C} (g : B → list C) (f : nat → A → B)
    (h : nat → A → C) (l : list A) :
  (∀ i x, g (f i x) = [h i x]) → flat_map g (imap f l) = imap h l.
Proof.
  revert f h. induction l as [|x l IH]; intros f h Hg; [done|].
  cbn [imap flat_map]. rewrite Hg. cbn [app]. f_equal.
  apply IH. intros i y. apply Hg.
Qed.

Lemma render_control_field_names control :
  field_names (render_control control) = [control_name control].
Proof.
  destruct control as [n l t|n l|n l o|n l o|n l]; cbn; try done.
  all: by rewrite flat_map_imap_nil.
Qed.

Lemma render_control_error_names control :
  error_names (render_control control) = [control_name control].
Proof.
  destruct control as [n l t|n l|n l o|n l o|n l]; cbn; try done.
  all: by rewrite flat_map_imap_nil.
Qed.

Lemma FormField_Some {Schema} (f : Field Schema) control :
  FormField f = Some control →
  control_name control = name f
  ∧ control_label control = label f
  ∧ type f ∈ recognized_kinds.
Proof.
  unfold FormField, recognized_kinds. cbv zeta.
  repeat case_bool_decide; intros [= <-]; (split; [done|split; [done|]]).
  - repeat (match goal with
            | Hin : _ ∈ _ :: _ |- _ => apply elem_of_cons in Hin as [->|Hin]
            | Hin : _ ∈ [] |- _ => by apply elem_of_nil in Hin
            end); kind_listed.
  - match goal with Heq : type f = _ |- _ => rewrite Heq end. kind_listed.
  - match goal with Heq : type f = _ |- _ => rewrite Heq end. kind_listed.
  - match goal with Heq : type f = _ |- _ => rewrite Heq end. kind_listed.
  - match goal with Heq : type f = _ |- _ => rewrite Heq end. kind_listed.
Qed.

(** X5. Whatever control [FormField] returns for a descriptor, the element
    tree of that control holds exactly one Formik field and exactly one error
    display, both bound to the descriptor's name; a single-line control gives
    its Formik field the descriptor's kind as input type, so the ['text']
    default of TextField is not used, and a checkbox gives it [checkbox]. *)
Theorem FormField_wiring {Schema} (f : Field Schema) (control : Control) :
  FormField f = Some control →
  field_names (render_control control) = [name f]
  ∧ error_names (render_control control) = [name f]
  ∧ (type f ∈ ["text"; "password"; "email"; "number"] →
     field_types (render_control control) = [Some (type f)])
  ∧ (type f = "checkbox" →
     field_types (render_control control) = [Some "checkbox"]).
Proof.
  intros Hcontrol.
  destruct (FormField_Some f control Hcontrol) as (Hname & _ & _).
  rewrite render_control_field_names, render_control_error_names, Hname.
  split; [done|]. split; [done|].
  revert Hcontrol. unfold FormField. cbv zeta.
  repeat case_bool_decide; intros [= <-]; split; intros Hkind; try done.
  by rewrite Hkind.
Qed.

Lemma FormField_wiring_witness :
  let element := render_control (TextField "email" None "email") in
  field_names element = ["email"]
  ∧ error_names element = ["email"]
  ∧ field_types element = [Some "email"].
Proof.
  destruct (FormField_wiring
    (descriptor "email" "email" (Some (email "Please enter a valid email")))
    (TextField "email" None "email")) as (Hfield & Herror & Htype & _);
    [reflexivity|].
  split; [exact Hfield|]. split; [exact Herror|].
  apply Htype. compute_done.
Defined.

(** X6. A radio group and a select offer one choice per option, in the order
    of the options and with repeated options kept: the choice at index [i]
    has React key [i], and both its value and its displayed text are the
    option. The other controls offer no choice. *)
Theorem render_control_choices (control : Control) :
  choices (render_control control)
  = imap (λ idx choice, (Some idx, choice, Some choice))
      (control_options control)
  ∧ length (choices (render_control control))
    = length (control_options control).
Proof.
  assert (choices (render_control control)
          = imap (λ idx choice, (Some idx, choice, Some choice))
              (control_options control)) as Hchoices.
  { destruct control as [n l t|n l|n l o|n l o|n l]; cbn; try done.
    all: rewrite app_nil_r; by apply flat_map_imap_singleton. }
  split; [done|]. by rewrite Hchoices, length_imap.
Qed.

(** ** The fields of the rendered form *)

Lemma omap_imap_slots {Schema} {B} (g : option Control → option B)
    (k : nat → nat) (fields : list (Field Schema)) :
  omap (λ slot : nat * option Control, g slot.2)
    (imap (λ index field, (k index, FormField field)) fields)
  = omap (λ field, g (FormField field)) fields.
Proof.
  revert k. induction fields as [|f fields IH]; intros k; [done|].
  specialize (IH (k ∘ S)).
  cbn [imap omap list_omap snd]. unfold compose in *. cbn beta in *.
  by rewrite IH.
Qed.

Lemma form_elements_omap {Schema} (fields : list (Field Schema)) :
  form_elements fields
  = omap (λ field, render_control <$> FormField field) fields.
Proof.
  unfold form_elements, render_fields.
  apply (omap_imap_slots (fmap render_control) id).
Qed.

Lemma form_field_names_cons {Schema} (f : Field Schema) fields :
  form_field_names (f :: fields)
  = (if bool_decide (type f ∈ recognized_kinds) then [name f] else [])
    ++ form_field_names fields.
Proof.
  unfold form_field_names. rewrite !form_elements_omap.
  cbn [omap list_omap].
  destruct (FormField f) as [control|] eqn:Hcontrol; cbn [fmap option_fmap option_map].
  - destruct (FormField_Some f control Hcontrol) as (Hname & _ & Hkind).
    rewrite bool_decide_eq_true_2 by done.
    cbn [flat_map]. by rewrite render_control_field_names, Hname.
  - rewrite bool_decide_eq_false_2; [done|].
    intros [control' Hsome]%FormField_is_Some. congruence.
Qed.

Lemma elem_of_form_field_names {Schema} (fields : list (Field Schema)) n :
  n ∈ form_field_names fields
  ↔ ∃ f, f ∈ fields ∧ name f = n ∧ type f ∈ recognized_kinds.
Proof.
  induction fields as [|f fields IH].
  - split; [by intros ?%elem_of_nil|].
    by intros (f & ?%elem_of_nil & _).
  - rewrite form_field_names_cons, elem_of_app, IH. split.
    + intros [Hn|(g & Hg & Hname & Hkind)].
      * case_bool_decide; [|by apply elem_of_nil in Hn].
        apply list_elem_of_singleton in Hn as ->.
        exists f. split; [left|done].
      * exists g. split; [by right|done].
    + intros (g & [->|Hg]%elem_of_cons & Hname & Hkind).
      * left. rewrite bool_decide_eq_true_2 by done.
        rewrite Hname. by left.
      * right. by exists g.
Qed.

(** C10 (amended). The aggregate validation contract takes a field's
    validationRule whatever the field's kind: for every Field Descriptor with
    a validationRule whose kind is unrecognized, which therefore renders no
    control, and whose name is not [__proto__], the contract contains that
    field's [name -> constraint] entry unless a later descriptor of the same
    name declares a rule, and the submit control stays disabled while that
    constraint rejects the value held under the name. Unless another
    descriptor of the same name has a recognised kind, the form shows no
    Formik field bound to that name. *)
Theorem unrecognized_kind_rule_in_contract `{AnySchema Schema}
    (pre post : list (Field Schema)) (f : Field Schema) (c : Schema) :
  type f ∉ recognized_kinds →
  validation f = Some c →
  name f ≠ "__proto__" →
  (∀ g, g ∈ post → name g = name f → validation g = None) →
  let fields := pre ++ f :: post in
  FormField f = None
  ∧ generateValidationSchema fields !! name f = Some c
  ∧ (∀ st, isValidSync c (values st !! name f) = false →
           submit_disabled fields st = true)
  ∧ ((∀ g, g ∈ fields → name g = name f → type g ∉ recognized_kinds) →
     name f ∉ form_field_names fields).
Proof.
  intros Hkind Hc Hproto Hpost fields. subst fields.
  assert (generateValidationSchema (pre ++ f :: post) !! name f = Some c)
    as Hentry by (by apply generateValidationSchema_last_rule).
  split; [by apply FormField_None|]. split; [done|]. split.
  - intros st Hreject.
    eapply submit_disabled_invalid, isValid_false; done.
  - intros Hnone (g & Hg & Hname & Hrendered)%elem_of_form_field_names.
    by apply (Hnone g).
Qed.

Lemma unrecognized_kind_rule_in_contract_witness :
  FormField (descriptor "captcha" "token"
               (Some (required "Please solve the captcha"))) = None
  ∧ generateValidationSchema captcha_fields !! "token"
    = Some (required "Please solve the captcha")
  ∧ submit_disabled captcha_fields
      (run captcha_fields [Change "username" (VStr "bob")]) = true
  ∧ "token" ∉ form_field_names captcha_fields.
Proof.
  pose proof (unrecognized_kind_rule_in_contract
    [descriptor "text" "username" (Some (required "Please enter your username"))]
    []
    (descriptor "captcha" "token" (Some (required "Please solve the captcha")))
    (required "Please solve the captcha")) as Hthm.
  destruct Hthm as (Hnone & Hentry & Hgate & Hhidden).
  - compute_done.
  - reflexivity.
  - discriminate.
  - intros g Hg. by apply elem_of_nil in Hg.
  - split; [exact Hnone|]. split; [exact Hentry|]. split.
    + apply Hgate. vm_compute. reflexivity.
    + apply Hhidden. intros g Hg Hname.
      repeat (apply elem_of_cons in Hg as [->|Hg];
              [first [discriminate Hname|compute_done]|]).
      by apply elem_of_nil in Hg.
Defined.

(** X7. The Formik fields on the page are bound, in list order, to the names
    of the descriptors of a recognised kind, one per such descriptor, and
    every one of these names other than [__proto__] is a key of the initial
    values, holding the empty string. *)
Theorem form_field_names_initial {Schema} (fields : list (Field Schema)) :
  form_field_names fields
  = name <$> filter (λ f, type f ∈ recognized_kinds) fields
  ∧ Forall (λ n, n ≠ "__proto__" →
                 initialValues fields !! n = Some (VStr ""))
      (form_field_names fields).
Proof.
  split.
  - induction fields as [|f fields IH]; [done|].
    rewrite form_field_names_cons, IH.
    case_bool_decide.
    + by rewrite filter_cons_True.
    + by rewrite filter_cons_False.
  - apply Forall_forall.
    intros n (f & Hf & <- & _)%elem_of_form_field_names Hproto.
    by apply lookup_initialValues_name.
Qed.

(** ** What reaches the callback *)

Lemma foldl_step_invariant `{AnySchema Schema} (fields : list (Field Schema))
    (P : FormState → Prop) events st :
  P st →
  (∀ st e, e ∈ events → P st → P (step fields st e)) →
  P (foldl (step fields) st events).
Proof.
  revert st. induction events as [|e events IH]; intros st Hst Hstep; [done|].
  cbn [foldl]. apply IH.
  - apply Hstep; [left|done].
  - intros st' e' He'. apply Hstep. by right.
Qed.

Lemma submit_enabled `{AnySchema Schema} (fields : list (Field Schema)) st :
  submit_disabled fields st = false →
  isSubmitting st = false
  ∧ accepted fields (values st)
  ∧ values st ≠ initialValues fields.
Proof.
  unfold submit_disabled, isValid, dirty, accepted.
  rewrite !orb_false_iff, !negb_false_iff.
  intros [[Hflight Hvalid%bool_decide_eq_true] Hdirty%bool_decide_eq_true].
  done.
Qed.

Lemma calls_handleSubmit_settled {Schema} (fields : list (Field Schema))
    outcome st :
  calls (handleSubmit_settled fields outcome st) = calls st.
Proof. by destruct outcome. Qed.

Lemma calls_step `{AnySchema Schema} (fields : list (Field Schema)) st e :
  calls (step fields st e) = calls st
  ∨ (e = Submit ∧ submit_disabled fields st = false
     ∧ calls (step fields st e) = values st :: calls st).
Proof.
  destruct e as [n v| |outcome]; cbn [step].
  - by left.
  - destruct (submit_disabled fields st) eqn:Hdisabled; [by left|by right].
  - left. destruct (isSubmitting st); [|done].
    apply calls_handleSubmit_settled.
Qed.

(** X8. Whatever the user does and however the callback settles, the
    external callback is only ever called with values that satisfy the
    aggregate validation contract and that differ from the initial values. *)
Theorem calls_accepted_and_dirty `{AnySchema Schema}
    (fields : list (Field Schema)) (events : list Event) :
  Forall (λ vals, accepted fields vals ∧ vals ≠ initialValues fields)
    (calls (run fields events)).
Proof.
  unfold run. apply foldl_step_invariant; [constructor|].
  intros st e _ Hcalls.
  destruct (calls_step fields st e) as [->|(_ & Henabled & ->)]; [done|].
  constructor; [|done].
  by destruct (submit_enabled fields st Henabled) as (_ & Hvalid & Hdirty).
Qed.

(** X9. In every reachable state the values hold an entry under the name of
    every descriptor, rendered or not, whose name is not [__proto__], and so
    do the values of every call of the external callback. *)
Theorem calls_cover_names `{AnySchema Schema}
    (fields : list (Field Schema)) (events : list Event) :
  let st := run fields events in
  (∀ f, f ∈ fields → name f ≠ "__proto__" → is_Some (values st !! name f))
  ∧ Forall (λ vals, ∀ f, f ∈ fields → name f ≠ "__proto__" →
                         is_Some (vals !! name f))
      (calls st).
Proof.
  intros st. subst st. unfold run.
  apply (foldl_step_invariant fields
    (λ st, (∀ f, f ∈ fields → name f ≠ "__proto__" →
                 is_Some (values st !! name f))
           ∧ Forall (λ vals, ∀ f, f ∈ fields → name f ≠ "__proto__" →
                                  is_Some (vals !! name f))
               (calls st))).
  - split; [|constructor]. intros f Hf Hproto. cbn [initialState values].
    rewrite lookup_initialValues_name by done. by eexists.
  - intros st e _ [Hvalues Hcalls]. split.
    + intros f Hf Hproto. destruct e as [n v| |outcome]; cbn [step].
      * cbn [setFieldValue values]. rewrite lookup_assign.
        case_decide; [by eexists|by apply Hvalues].
      * destruct (submit_disabled fields st); by apply Hvalues.
      * destruct (isSubmitting st); [|by apply Hvalues].
        destruct outcome; cbn; [|by apply Hvalues].
        rewrite lookup_initialValues_name by done. by eexists.
    + destruct (calls_step fields st e) as [->|(_ & _ & ->)]; [done|].
      by constructor.
Qed.

Lemma calls_bounded_from `{AnySchema Schema} (fields : list (Field Schema))
    events st :
  length (calls (foldl (step fields) st events))
  + (if isSubmitting st then 1 else 0)
  ≤ length (calls st)
    + (if isSubmitting (foldl (step fields) st events) then 1 else 0)
    + settlements events.
Proof.
  revert st. induction events as [|e events IH]; intros st.
  - cbn. lia.
  - cbn [foldl]. specialize (IH (step fields st e)).
    assert (length (calls (step fields st e))
            + (if isSubmitting st then 1 else 0)
            ≤ length (calls st)
              + (if isSubmitting (step fields st e) then 1 else 0)
              + (if is_settlement e then 1 else 0)) as Hstep.
    { destruct e as [n v| |outcome]; cbn [step is_settlement].
      - cbn. lia.
      - destruct (submit_disabled fields st) eqn:Hdisabled; [lia|].
        apply submit_enabled in Hdisabled as (-> & _). cbn. lia.
      - destruct (isSubmitting st) eqn:Hflight; [|rewrite Hflight; lia].
        rewrite calls_handleSubmit_settled.
        destruct outcome; cbn; lia. }
    unfold settlements in *. destruct e as [n v| |outcome];
      cbn [is_settlement] in Hstep;
      [rewrite filter_cons_False by done
      |rewrite filter_cons_False by done
      |rewrite filter_cons_True by done; cbn [length]]; lia.
Qed.

(** X10. At most one call of the external callback is in flight: the number
    of calls never exceeds the number of settlements by more than one, and
    does not exceed it at all while no submission is in flight. *)
Theorem calls_bounded `{AnySchema Schema} (fields : list (Field Schema))
    (events : list Event) :
  length (calls (run fields events))
  ≤ settlements events + (if isSubmitting (run fields events) then 1 else 0).
Proof.
  pose proof (calls_bounded_from fields events (initialState fields)) as Hle.
  unfold run. cbn [initialState isSubmitting calls length] in Hle. lia.
Qed.

(** ** Forms the user cannot complete *)

(** X11. Take a form in which every Formik field on the page has a plain
    name, and a plain name that has a constraint rejecting the empty string
    but no Formik field on the page. That name keeps the empty string for
    good: whatever the user does with the rendered form, no submission ever
    starts and the external callback is never called. *)
Theorem unrendered_required_never_submits `{AnySchema Schema}
    (fields : list (Field Schema)) (n : string) (rule : Schema)
    (events : list Event) :
  generateValidationSchema fields !! n = Some rule →
  isValidSync rule (Some (VStr "")) = false →
  plain_name n = true →
  Forall (λ m, plain_name m = true) (form_field_names fields) →
  n ∉ form_field_names fields →
  Forall (user_event fields) events →
  let st := run fields events in
  values st !! n = Some (VStr "")
  ∧ isSubmitting st = false
  ∧ calls st = [].
Proof.
  intros Hrule Hrequired _ _ Hhidden Hevents st. subst st. unfold run.
  apply (foldl_step_invariant fields
    (λ st, values st !! n = Some (VStr "")
           ∧ isSubmitting st = false ∧ calls st = [])).
  - split; [|done]. cbn [initialState values].
    assert (n ≠ "__proto__") as Hproto.
    { intros ->. by rewrite generateValidationSchema_proto in Hrule. }
    apply generateValidationSchema_origin in Hrule as (f & Hf & <- & _).
    by apply lookup_initialValues_name.
  - intros st e He (Hempty & Hidle & Hcalls).
    destruct e as [m v| |outcome]; cbn [step].
    + rewrite Forall_forall in Hevents. specialize (Hevents _ He).
      cbn [user_event] in Hevents.
      assert (m ≠ n) as Hne by (intros ->; done).
      cbn [setFieldValue values isSubmitting calls].
      by rewrite lookup_assign_ne.
    + assert (submit_disabled fields st = true) as ->; [|done].
      eapply submit_disabled_invalid, isValid_false; [done|].
      by rewrite Hempty.
    + by rewrite Hidle.
Qed.

Lemma unrendered_required_never_submits_witness :
  calls (run captcha_fields
           [Change "username" (VStr "bob"); Submit; Settle Resolved; Submit])
  = [].
Proof.
  apply (unrendered_required_never_submits captcha_fields "token"
           (required "Please solve the captcha")
           [Change "username" (VStr "bob"); Submit; Settle Resolved; Submit]).
  - vm_compute. reflexivity.
  - reflexivity.
  - reflexivity.
  - repeat constructor.
  - compute_done.
  - repeat constructor.
Defined.

(** X12. A form none of whose descriptors is of a recognised kind, the empty
    form among them, shows no field and never leaves its initial state: the
    submit control stays disabled and the callback is never called. *)
Theorem no_control_no_change `{AnySchema Schema}
    (fields : list (Field Schema)) (events : list Event) :
  form_field_names fields = [] →
  Forall (user_event fields) events →
  run fields events = initialState fields
  ∧ submit_disabled fields (run fields events) = true.
Proof.
  intros Hnone Hevents.
  assert (submit_disabled fields (initialState fields) = true) as Hdisabled.
  { unfold submit_disabled, dirty. cbn [initialState values isSubmitting].
    rewrite (bool_decide_eq_false_2 (_ ≠ _)); [|by intros []].
    by destruct (isValid _ _). }
  assert (run fields events = initialState fields) as ->; [|done].
  unfold run.
  apply (foldl_step_invariant fields (λ st, st = initialState fields));
    [done|].
  intros st e He ->. destruct e as [m v| |outcome]; cbn [step].
  - rewrite Forall_forall in Hevents. specialize (Hevents _ He).
    cbn [user_event] in Hevents. rewrite Hnone in Hevents.
    by apply elem_of_nil in Hevents.
  - by rewrite Hdisabled.
  - done.
Qed.

Lemma no_control_no_change_witness :
  run (Schema:=SampleRule) [] [Submit; Settle Resolved; Submit]
  = initialState (Schema:=SampleRule) []
  ∧ run [descriptor "submit" "go" None; descriptor "captcha" "token" None]
      [Submit]
    = initialState
        [descriptor "submit" "go" None; descriptor "captcha" "token" None].
Proof.
  split.
  - apply (no_control_no_change (Schema:=SampleRule) []
             [Submit; Settle Resolved; Submit]); [reflexivity|].
    repeat constructor.
  - apply (no_control_no_change
             [descriptor "submit" "go" None; descriptor "captcha" "token" None]
             [Submit]); [reflexivity|].
    repeat constructor.
Defined.

(** X13. Once the adapter has handled a resolved promise the submit control
    is disabled, whatever the form held before: the values are the initial
    values again, edits made while the call was in flight included, so a
    further submit attempt calls nothing until the user edits a field. *)
Theorem resolved_disables_submit `{AnySchema Schema}
    (fields : list (Field Schema)) (st : FormState) :
  let st' := handleSubmit_settled fields Resolved st in
  values st' = initialValues fields
  ∧ submit_disabled fields st' = true
  ∧ step fields st' Submit = st'
  ∧ ∀ onSubmit, submitForm fields onSubmit st' = st'.
Proof.
  intros st'.
  assert (submit_disabled fields st' = true) as Hdisabled.
  { unfold submit_disabled, dirty. subst st'. cbn.
    rewrite (bool_decide_eq_false_2 (_ ≠ _)); [|by intros []].
    by destruct (negb _). }
  split; [done|]. split; [done|]. split.
  - cbn [step]. by rewrite Hdisabled.
  - intros onSubmit. unfold submitForm. by rewrite Hdisabled.
Qed.

(** ** Putting field lists together *)

(** X14. Building from a concatenation is building from the parts and
    merging, the later part winning on a shared name: for the contract the
    rules of the second list override those of the first, and the initial
    values of the two lists are merged. *)
Theorem mappings_of_app {Schema} (l1 l2 : list (Field Schema)) :
  generateValidationSchema (l1 ++ l2)
  = generateValidationSchema l2 ∪ generateValidationSchema l1
  ∧ initialValues (l1 ++ l2) = initialValues l2 ∪ initialValues l1.
Proof.
  split.
  - induction l2 as [|f l2 IH] using rev_ind.
    + rewrite app_nil_r. unfold generateValidationSchema at 2. cbn [foldl].
      by rewrite (left_id_L ∅ (∪)).
    + rewrite app_assoc, !generateValidationSchema_snoc, IH.
      unfold shape_assign. destruct (validation f) as [rule|]; [|done].
      by rewrite assign_union_l.
  - induction l2 as [|f l2 IH] using rev_ind.
    + rewrite app_nil_r. unfold initialValues at 2. cbn [foldl].
      by rewrite (left_id_L ∅ (∪)).
    + rewrite app_assoc, !initialValues_snoc, IH.
      by rewrite assign_union_l.
Qed.

Lemma foldl_shape_assign_filter {Schema} (fields : list (Field Schema))
    (shape : gmap string Schema) :
  foldl shape_assign shape fields
  = foldl shape_assign shape
      (filter (λ f, is_Some (validation f)) fields).
Proof.
  revert shape. induction fields as [|f fields IH]; intros shape; [done|].
  cbn [foldl]. destruct (validation f) as [rule|] eqn:Hrule.
  - rewrite filter_cons_True by (by rewrite Hrule). cbn [foldl]. apply IH.
  - rewrite filter_cons_False by (rewrite Hrule; by intros [? ?]).
    rewrite shape_assign_no_rule by done. apply IH.
Qed.

(** X15. Descriptors without a validationRule have no influence on the
    contract: removing them from the list, wherever they stand, leaves the
    contract as it is. *)
Theorem generateValidationSchema_filter {Schema} (fields : list (Field Schema)) :
  generateValidationSchema fields
  = generateValidationSchema (filter (λ f, is_Some (validation f)) fields).
Proof. apply foldl_shape_assign_filter. Qed.

(** X16. When no descriptor declares a validationRule the contract is empty
    and every state is valid: the submit control is enabled as soon as the
    values differ from the initial values and nothing is in flight. *)
Theorem no_rules_only_dirty `{AnySchema Schema} (fields : list (Field Schema)) :
  (∀ f, f ∈ fields → validation f = None) →
  generateValidationSchema fields = ∅
  ∧ ∀ st, isValid fields st = true
          ∧ submit_disabled fields st
            = isSubmitting st || negb (dirty fields st).
Proof.
  intros Hnone.
  assert (generateValidationSchema fields = ∅) as Hempty.
  { apply map_eq. intros n. rewrite lookup_empty.
    apply generateValidationSchema_no_rule. intros g Hg _. by apply Hnone. }
  split; [done|]. intros st.
  assert (isValid fields st = true) as Hvalid.
  { unfold isValid. rewrite Hempty. apply bool_decide_eq_true.
    apply map_Forall_empty. }
  split; [done|]. unfold submit_disabled. rewrite Hvalid.
  by destruct (isSubmitting st).
Qed.

Lemma no_rules_only_dirty_witness :
  let fields := [descriptor "text" "nickname" None;
                 descriptor "textarea" "bio" None] in
  generateValidationSchema fields = ∅
  ∧ submit_disabled fields (run fields [Change "bio" (VStr "hello")]) = false.
Proof.
  destruct (no_rules_only_dirty
    [descriptor "text" "nickname" None; descriptor "textarea" "bio" None])
    as [Hempty Hgate].
  - intros f Hf.
    repeat (apply elem_of_cons in Hf as [->|Hf]; [reflexivity|]).
    by apply elem_of_nil in Hf.
  - split; [exact Hempty|].
    destruct (Hgate (run [descriptor "text" "nickname" None;
                          descriptor "textarea" "bio" None]
                       [Change "bio" (VStr "hello")])) as [_ ->].
    vm_compute. reflexivity.
Defined.

(** X17. The initial values depend on the set of names alone: two lists of
    descriptors that carry the same names, in any order and any number of
    times, with whatever kinds and rules, have the same initial values. *)
Theorem initialValues_names_only {Schema Schema'}
    (fields : list (Field Schema)) (fields' : list (Field Schema')) :
  list_to_set (C:=gset string) (name <$> fields)
  = list_to_set (name <$> fields') →
  initialValues fields = initialValues fields'.
Proof.
  intros Hnames. apply map_eq. intros n. rewrite !lookup_initialValues.
  assert (n ∈ name <$> fields ↔ n ∈ name <$> fields') as Hn.
  { by rewrite <- !(elem_of_list_to_set (C:=gset string)), Hnames. }
  repeat case_decide; try done; exfalso; tauto.
Qed.

Lemma initialValues_names_only_witness :
  initialValues clash_fields
  = initialValues [descriptor "captcha" "contact" None].
Proof.
  apply (initialValues_names_only clash_fields
           [descriptor "captcha" "contact" None]).
  compute_done.
Defined.

(** ** The callback of App.tsx *)

(** X18. With the callback of App.tsx, a submit attempt on an enabled form
    ends in the failure message with the values kept when the user name is
    [error], and in the success message with the values reset otherwise; in
    both cases nothing is left in flight. *)
Theorem app_onSubmit_outcome `{AnySchema Schema}
    (fields : list (Field Schema)) (st : FormState) :
  submit_disabled fields st = false →
  let st' := submitForm fields app_onSubmit st in
  isSubmitting st' = false
  ∧ calls st' = values st :: calls st
  ∧ (values st !! "username" = Some (VStr "error") →
     render_status st' = [("red", failure_text)] ∧ values st' = values st)
  ∧ (values st !! "username" ≠ Some (VStr "error") →
     render_status st' = [("green", success_text)]
     ∧ values st' = initialValues fields).
Proof.
  intros Henabled st'. subst st'. unfold submitForm. rewrite Henabled.
  unfold seq, handleSubmit, app_onSubmit.
  cbn [setSubmitting values invoke].
  destruct (decide (values st !! "username" = Some (VStr "error")))
    as [Herror|Hother]; cbn; by repeat split.
Qed.

Lemma app_onSubmit_outcome_witness :
  render_status (submitForm signup_fields app_onSubmit (signup_typed "error"))
  = [("red", failure_text)]
  ∧ render_status (submitForm signup_fields app_onSubmit (signup_typed "bob"))
    = [("green", success_text)].
Proof.
  split.
  - destruct (app_onSubmit_outcome signup_fields (signup_typed "error"))
      as (_ & _ & Hfail & _); [vm_compute; reflexivity|].
    apply Hfail. vm_compute. reflexivity.
  - destruct (app_onSubmit_outcome signup_fields (signup_typed "bob"))
      as (_ & _ & _ & Hok); [vm_compute; reflexivity|].
    apply Hok. vm_compute. discriminate.
Defined.
